(** * serverlib_core: the @ServerImpl annotation pipeline

    A shallow embedding of
      - serverlib_scripts/serverlib_core/L3_process_and_register.py
      - serverlib_scripts/serverlib_core/L2_comment_server_impl.py

    Texts are lists of characters.  A character is a code point in the
    range U+0000..U+00FF, held in an [ascii]; the character classes below
    are Python's on that range.  A file is held as the text Python's text
    layer delivers for it (decoded, line ends as LF). *)

From Stdlib Require Import List Ascii String ZArith Lia Bool.
From stdpp Require Import base list gmap strings.

Local Open Scope list_scope.

(** ** Texts and characters *)

Abbreviation text := (list ascii).

Definition T (s : string) : text := list_ascii_of_string s.

Definition LF : ascii := "010"%char.
Definition DQ : ascii := "034"%char.
Definition SQ : ascii := "039"%char.
Definition BSL : ascii := "092"%char.

Definition code (c : ascii) : N := N_of_ascii c.

Definition in_range (lo hi : N) (c : ascii) : bool :=
  ((lo <=? code c) && (code c <=? hi))%N.

Definition chr_eqb (a b : ascii) : bool := Ascii.eqb a b.

(** [str.isspace] on one character, which is also the class [\s] of [re]
    for [str] patterns: TAB..CR, FS..US, SPACE, NEL and NBSP. *)
Definition isspace (c : ascii) : bool :=
  in_range 9 13 c || in_range 28 32 c || (code c =? 133)%N || (code c =? 160)%N.

(** The class [\w] of [re] for [str] patterns: [str.isalnum] or underscore. *)
Definition isword (c : ascii) : bool :=
  in_range 48 57 c || in_range 65 90 c || (code c =? 95)%N || in_range 97 122 c
  || (code c =? 170)%N || in_range 178 179 c || (code c =? 181)%N
  || in_range 185 186 c || in_range 188 190 c || in_range 192 214 c
  || in_range 216 246 c || in_range 248 255 c.

(** The class of every character but the closing parenthesis. *)
Definition not_rparen (c : ascii) : bool := negb (chr_eqb c ")"%char).

Definition text_eqb (a b : text) : bool := bool_decide (a = b).

(** [s.startswith(c)] and [s.endswith(c)] for a one-character [c]. *)
Definition startswith (s : text) (c : ascii) : bool :=
  match s with
  | x :: _ => chr_eqb x c
  | [] => false
  end.

Definition endswith (s : text) (c : ascii) : bool :=
  match last s with
  | Some x => chr_eqb x c
  | None => false
  end.

(** [s.lstrip()], [s.rstrip()], [s.strip()]. *)
Fixpoint lstrip (s : text) : text :=
  match s with
  | c :: s' => if isspace c then lstrip s' else s
  | [] => []
  end.

Definition rstrip (s : text) : text := rev (lstrip (rev s)).

Definition strip (s : text) : text := rstrip (lstrip s).

(** [s[1:-1]]. *)
Definition slice_1_m1 (s : text) : text := removelast (tail s).

(** [sep.join(parts)]. *)
Fixpoint join (sep : text) (parts : list text) : text :=
  match parts with
  | [] => []
  | [p] => p
  | p :: ps => p ++ sep ++ join sep ps
  end.

(** ** Regular expressions

    The fragment of [re] the two scripts use: literals, character
    classes, a greedy star over a character class, concatenation, a greedy
    optional group and numbered capture groups.  [rmatch] lists the ways a
    pattern matches a prefix of the input in the order the backtracking
    matcher of [re] tries them, so the head of the list is the match [re]
    reports. *)

Inductive regex : Type :=
| Lit (s : text)
| Cls (p : ascii -> bool)
| Star (p : ascii -> bool)
| Seq (r1 r2 : regex)
| Opt (r : regex)
| Grp (n : nat) (r : regex).

Declare Scope regex_scope.
Delimit Scope regex_scope with re.
Bind Scope regex_scope with regex.
Infix "+>" := Seq (at level 60, right associativity) : regex_scope.

(** [p+] for a character class [p]. *)
Definition Plus (p : ascii -> bool) : regex := Seq (Cls p) (Star p).

(** The groups captured so far, latest first. *)
Abbreviation caps := (list (nat * text)).

Fixpoint group (n : nat) (cs : caps) : text :=
  match cs with
  | [] => []
  | (k, w) :: cs' => if Nat.eqb k n then w else group n cs'
  end.

Fixpoint lit_run (l s : text) : option text :=
  match l, s with
  | [], _ => Some s
  | a :: l', b :: s' => if chr_eqb a b then lit_run l' s' else None
  | _ :: _, [] => None
  end.

(** The remainders a greedy [p*] can leave, longest run first. *)
Fixpoint star_run (p : ascii -> bool) (s : text) : list text :=
  match s with
  | c :: s' => if p c then star_run p s' ++ [s] else [s]
  | [] => [[]]
  end.

Fixpoint rmatch (r : regex) (cs : caps) (s : text) : list (caps * text) :=
  match r with
  | Lit l =>
      match lit_run l s with
      | Some s' => [(cs, s')]
      | None => []
      end
  | Cls p =>
      match s with
      | c :: s' => if p c then [(cs, s')] else []
      | [] => []
      end
  | Star p => pair cs <$> star_run p s
  | Seq r1 r2 => rmatch r1 cs s ≫= (λ st, rmatch r2 st.1 st.2)
  | Opt r1 => rmatch r1 cs s ++ [(cs, s)]
  | Grp n r1 =>
      (λ st, ((n, take (length s - length st.2) s) :: st.1, st.2))
        <$> rmatch r1 cs s
  end.

(** A match object: where the match starts, the matched text
    ([group(0)]), the numbered groups and the text after the match. *)
Record match_obj : Type := MatchObj {
  m_start : nat;
  m_group0 : text;
  m_groups : caps;
  m_rest : text
}.

Definition m_end (m : match_obj) : nat := m_start m + length (m_group0 m).

(** [pattern.match] at the head of [s], which sits at offset [pos]. *)
Definition match_at (r : regex) (pos : nat) (s : text) : option match_obj :=
  match rmatch r [] s with
  | (cs, rest) :: _ =>
      Some (MatchObj pos (take (length s - length rest) s) cs rest)
  | [] => None
  end.

(** [pattern.search]: the leftmost position with a match. *)
Fixpoint search_from (r : regex) (pos : nat) (s : text) : option match_obj :=
  match match_at r pos s with
  | Some m => Some m
  | None =>
      match s with
      | [] => None
      | _ :: s' => search_from r (S pos) s'
      end
  end.

Definition search (r : regex) (s : text) : option match_obj := search_from r 0 s.

(** ** The patterns of the scripts *)

Definition server_impl_annotation_source : string :=
  "(\s*)/\*\s*@ServerImpl\s*\(([^)]*)\)\s*\*/".

(** The compiled form of [server_impl_annotation_source]. *)
Definition server_impl_annotation_pattern : regex :=
  (Grp 1 (Star isspace) +> Lit (T "/*") +> Star isspace +> Lit (T "@ServerImpl") +>
   Star isspace +> Lit (T "(") +> Grp 2 (Star not_rparen) +> Lit (T ")") +>
   Star isspace +> Lit (T "*/"))%re.

Definition server_impl_processed_source : string :=
  "/\*--\s*@ServerImpl\s*\([^)]*\)\s*--\*/".

(** The compiled form of [server_impl_processed_source]. *)
Definition server_impl_processed_pattern : regex :=
  (Lit (T "/*--") +> Star isspace +> Lit (T "@ServerImpl") +> Star isspace +>
   Lit (T "(") +> Star not_rparen +> Lit (T ")") +> Star isspace +>
   Lit (T "--*/"))%re.

Definition class_source : string :=
  "class\s+(\w+)(?:\s+final)?\s*:\s*public\s+IServer".

(** The compiled form of [class_source]. *)
Definition class_pattern : regex :=
  (Lit (T "class") +> Plus isspace +> Grp 1 (Plus isword) +>
   Opt (Plus isspace +> Lit (T "final")) +> Star isspace +> Lit (T ":") +>
   Star isspace +> Lit (T "public") +> Plus isspace +> Lit (T "IServer"))%re.

Definition init_source : string :=
  "(inline\s+Bool\s+Init\s*\(\s*\)\s*\{)\s*return\s+false\s*;(\s*\})".

(** The compiled form of [init_source]; the flags MULTILINE and DOTALL
    change nothing, the pattern has no anchor and no dot. *)
Definition init_pattern : regex :=
  (Grp 1 (Lit (T "inline") +> Plus isspace +> Lit (T "Bool") +> Plus isspace +>
          Lit (T "Init") +> Star isspace +> Lit (T "(") +> Star isspace +>
          Lit (T ")") +> Star isspace +> Lit (T "{")) +>
   Star isspace +> Lit (T "return") +> Plus isspace +> Lit (T "false") +>
   Star isspace +> Lit (T ";") +> Grp 2 (Star isspace +> Lit (T "}")))%re.

(** ** L3_process_and_register.py *)

(** [extract_bracket_content(content)] *)
Definition extract_bracket_content (content : text) : text :=
  match content with
  | [] => []
  | _ =>
      let content := strip content in
      if (startswith content DQ && endswith content DQ)
         || (startswith content SQ && endswith content SQ)
      then slice_1_m1 content
      else content
  end.

(** What a path holds: nothing ([Path.exists] is false), something that
    is not a file ([Path.is_file] is false), a file that can be read and
    written, a file that can be read while opening it for writing raises
    an [OSError], or a file that cannot be opened for reading. *)
Inductive fs_entry : Type :=
| Missing
| NotAFile
| File (content : text)
| ReadOnly (content : text)
| Unreadable.

(** [f.readlines()]: the lines of a text, each with its line end. *)
Fixpoint readlines (s : text) : list text :=
  match s with
  | [] => []
  | c :: s' =>
      if chr_eqb c LF then [c] :: readlines s'
      else match readlines s' with
           | [] => [[c]]
           | l :: ls => (c :: l) :: ls
           end
  end.

(** [f.writelines(lines)] *)
Definition writelines (lines : list text) : text := concat lines.

(** [enumerate(lines)] *)
Fixpoint enumerate_from {A : Type} (i : nat) (l : list A) : list (nat * A) :=
  match l with
  | [] => []
  | x :: l' => (i, x) :: enumerate_from (S i) l'
  end.

Definition enumerate {A : Type} (l : list A) : list (nat * A) := enumerate_from 0 l.

(** [range(a, b)] *)
Definition py_range (a b : nat) : list nat := seq a (b - a).

Record match_info : Type := MatchInfo {
  line_number : nat;
  class_name : text;
  server_impl_content : text;
  file_path : text
}.

Inductive scan_error : Type :=
| FileDoesNotExist      (* File does not exist: ... *)
| PathIsNotAFile        (* Path is not a file: ... *)
| ProcessingError.      (* Error processing file: ... *)

(** The [result] dictionary of [check_and_comment_server_impl]. *)
Record scan_result : Type := ScanResult {
  found : bool;
  matches : list match_info;
  modified : bool;
  error : option scan_error
}.

(** The inner loop [for j in range(i + 1, min(i + 6, len(lines)))]: the
    name of the first qualifying class, [None] when the loop ends with
    [found_class] still false. *)
Fixpoint lookahead (lines : list text) (js : list nat) : option text :=
  match js with
  | [] => None
  | j :: js' =>
      match search class_pattern (lines !!! j) with
      | Some class_match => Some (group 1 (m_groups class_match))
      | None => lookahead lines js'
      end
  end.

Definition find_class (lines : list text) (i : nat) : option text :=
  lookahead lines (py_range (i + 1) (Nat.min (i + 6) (length lines))).

(** The processed marker written for a match of the annotation pattern. *)
Definition processed_line (server_impl_match : match_obj) : text :=
  let indent := group 1 (m_groups server_impl_match) in
  let content_part := group 2 (m_groups server_impl_match) in
  indent ++ T "/*--@ServerImpl(" ++ content_part ++ T ")--*/" ++ [LF].

(** What the outer loop carries: [modified_lines] and the fields of
    [result] it updates. *)
Record scan_state : Type := ScanState {
  st_modified_lines : list text;
  st_found : bool;
  st_matches : list match_info;
  st_modified : bool
}.

Definition is_match (o : option match_obj) : bool :=
  match o with
  | Some _ => true
  | None => false
  end.

(** One turn of [for i, line in enumerate(lines)]. *)
Definition scan_line (full_file_path : text) (lines : list text)
    (st : scan_state) (il : nat * text) : scan_state :=
  let '(i, line) := il in
  let stripped_line := strip line in
  if is_match (search server_impl_processed_pattern stripped_line) then st
  else
    match search server_impl_annotation_pattern stripped_line with
    | None => st
    | Some server_impl_match =>
        match find_class lines i with
        | None => st
        | Some cls =>
            let bracket_content := group 2 (m_groups server_impl_match) in
            let extracted_content := extract_bracket_content bracket_content in
            let '(mlines, mflag) :=
              if negb (is_match (search server_impl_processed_pattern stripped_line))
              then (<[i := processed_line server_impl_match]> (st_modified_lines st), true)
              else (st_modified_lines st, st_modified st) in
            let match_info := MatchInfo (i + 1) cls extracted_content full_file_path in
            ScanState mlines true (st_matches st ++ [match_info]) mflag
        end
    end.

Definition scan_lines (full_file_path : text) (lines : list text) : scan_state :=
  fold_left (scan_line full_file_path lines) (enumerate lines)
            (ScanState lines false [] false).

(** [check_and_comment_server_impl(file_path)]: the result dictionary and
    the text written to the file, [None] when the file is not written.
    [full_file_path] is [str(file_path.resolve())].  An [OSError] of
    [open] ends in the handler [except Exception], which keeps what the
    result holds by then and adds the error. *)
Definition check_and_comment_server_impl (full_file_path : text) (f : fs_entry)
    : scan_result * option text :=
  match f with
  | Missing => (ScanResult false [] false (Some FileDoesNotExist), None)
  | NotAFile => (ScanResult false [] false (Some PathIsNotAFile), None)
  | File content =>
      let lines := readlines content in
      let st := scan_lines full_file_path lines in
      (ScanResult (st_found st) (st_matches st) (st_modified st) None,
       if st_modified st then Some (writelines (st_modified_lines st)) else None)
  | ReadOnly content =>
      (* [open(file_path, 'w')] raises after the loop has filled the
         result; the handler adds the error and the result is returned *)
      let lines := readlines content in
      let st := scan_lines full_file_path lines in
      (ScanResult (st_found st) (st_matches st) (st_modified st)
                  (if st_modified st then Some ProcessingError else None),
       None)
  | Unreadable => (ScanResult false [] false (Some ProcessingError), None)
  end.

(** The file after the call. *)
Definition file_after (f : fs_entry) (written : option text) : fs_entry :=
  match written with
  | Some t => File t
  | None => f
  end.

(** *** Code synthesis *)

(** An entry of [all_registrations]. *)
Record registration : Type := Registration {
  reg_class_name : text;
  reg_server_impl_content : text;
  reg_file_path : text
}.

Section CodeSynthesizer.

(** [str(Path(p).resolve())]: the absolute path the file system gives [p]. *)
Variable resolve : text -> text.

(** [Path(reg['file_path']).resolve()] as a text. *)
Definition resolved_path (reg : registration) : text := resolve (reg_file_path reg).

Definition include_directive (file_path : text) : text :=
  T "#include " ++ [DQ] ++ file_path ++ [DQ].

(** One turn of [for reg in registrations], on [(includes, seen_paths)]. *)
Definition include_step (st : list text * gset text) (reg : registration)
    : list text * gset text :=
  let file_path := resolved_path reg in
  if decide (file_path ∈ st.2) then st
  else (st.1 ++ [include_directive file_path], {[file_path]} ∪ st.2).

(** [generate_include_statements(registrations, library_dir)];
    [library_dir] is not used. *)
Definition generate_include_statements (registrations : list registration) : text :=
  match registrations with
  | [] => []
  | _ => join [LF] (fold_left include_step registrations ([], ∅)).1
  end.

End CodeSynthesizer.

Definition register_statement (reg : registration) : text :=
  T "    ServerProvider::RegisterServer<" ++ reg_class_name reg ++ T ">("
    ++ [DQ] ++ reg_server_impl_content reg ++ [DQ] ++ T ");".

(** [generate_registration_code(registrations)] *)
Definition generate_registration_code (registrations : list registration) : text :=
  match registrations with
  | [] => T "    return false;"
  | _ =>
      let lines := fold_left (λ lines reg, lines ++ [register_statement reg])
                             registrations [] in
      join [LF] (lines ++ [T "    return true;"])
  end.

(** *** [str.find], [str.rfind] and the replacement templates of [re] *)

Definition is_prefix (sub s : text) : bool :=
  match lit_run sub s with
  | Some _ => true
  | None => false
  end.

Fixpoint find_from (sub s : text) (pos : nat) : Z :=
  if is_prefix sub s then Z.of_nat pos
  else match s with
       | [] => (-1)%Z
       | _ :: s' => find_from sub s' (S pos)
       end.

(** [s.find(sub, start)] *)
Definition find (sub s : text) (start : nat) : Z :=
  if start <=? length s then find_from sub (drop start s) start else (-1)%Z.

Fixpoint rfind_from (sub s : text) (pos : nat) : Z :=
  match s with
  | [] => if is_prefix sub [] then Z.of_nat pos else (-1)%Z
  | _ :: s' =>
      let later := rfind_from sub s' (S pos) in
      if (0 <=? later)%Z then later
      else if is_prefix sub s then Z.of_nat pos else (-1)%Z
  end.

(** [s.rfind(sub, 0, stop)] *)
Definition rfind (sub s : text) (stop : nat) : Z := rfind_from sub (take stop s) 0.

(** An item of a parsed replacement template. *)
Inductive titem : Type :=
| TLit (c : ascii)
| TGroup (n : nat).

Definition is_digit (c : ascii) : bool := in_range 48 57 c.
Definition is_octdigit (c : ascii) : bool := in_range 48 55 c.
Definition is_ascii_letter (c : ascii) : bool := in_range 65 90 c || in_range 97 122 c.
Definition digit_val (c : ascii) : N := (code c - 48)%N.
Definition chr (n : N) : ascii := ascii_of_N n.

(** [int(name)] for a text of decimal digits. *)
Definition int_of_digits (name : text) : N :=
  fold_left (λ acc c, (acc * 10 + digit_val c)%N) name 0%N.

(** The table ESCAPES of [re]. *)
Definition template_escape (c : ascii) : option ascii :=
  if chr_eqb c "a" then Some (chr 7)
  else if chr_eqb c "b" then Some (chr 8)
  else if chr_eqb c "f" then Some (chr 12)
  else if chr_eqb c "n" then Some LF
  else if chr_eqb c "r" then Some (chr 13)
  else if chr_eqb c "t" then Some (chr 9)
  else if chr_eqb c "v" then Some (chr 11)
  else if chr_eqb c BSL then Some BSL
  else None.

(** [addgroup(index, pos)]: a reference past the pattern's groups is an
    error. *)
Definition addgroup (groups : nat) (index : N) (rest : option (list titem))
    : option (list titem) :=
  if (index <=? N.of_nat groups)%N then cons (TGroup (N.to_nat index)) <$> rest
  else None.

(** [parse_template(source, pattern)] of CPython 3.12 and later; [None]
    stands for the [re.error] (or [IndexError]) it raises.  Group names
    are decimal numbers here, since none of the patterns names a group.
    (CPython before 3.12 also took, with a deprecation warning, any name
    [int] can read.) *)
Fixpoint parse_template (groups : nat) (s : text) {struct s} : option (list titem) :=
  match s with
  | [] => Some []
  | c :: s1 =>
      if negb (chr_eqb c BSL) then cons (TLit c) <$> parse_template groups s1
      else
        match s1 with
        | [] => None
        | e :: s2 =>
            if chr_eqb e "g" then
              match s2 with
              | lt :: s3 =>
                  if chr_eqb lt "<" then parse_group_name groups [] s3 else None
              | [] => None
              end
            else if chr_eqb e "0" then
              match s2 with
              | d2 :: s3 =>
                  if is_octdigit d2 then
                    match s3 with
                    | d3 :: s4 =>
                        if is_octdigit d3
                        then cons (TLit (chr (8 * digit_val d2 + digit_val d3)))
                               <$> parse_template groups s4
                        else cons (TLit (chr (digit_val d2))) <$> parse_template groups s3
                    | [] => cons (TLit (chr (digit_val d2))) <$> parse_template groups s3
                    end
                  else cons (TLit (chr 0)) <$> parse_template groups s2
              | [] => cons (TLit (chr 0)) <$> parse_template groups s2
              end
            else if is_digit e then
              match s2 with
              | d2 :: s3 =>
                  if is_digit d2 then
                    match s3 with
                    | d3 :: s4 =>
                        if is_octdigit e && is_octdigit d2 && is_octdigit d3 then
                          let v := (64 * digit_val e + 8 * digit_val d2 + digit_val d3)%N in
                          if (255 <? v)%N then None
                          else cons (TLit (chr v)) <$> parse_template groups s4
                        else addgroup groups (10 * digit_val e + digit_val d2)
                                      (parse_template groups s3)
                    | [] => addgroup groups (10 * digit_val e + digit_val d2)
                                     (parse_template groups s3)
                    end
                  else addgroup groups (digit_val e) (parse_template groups s2)
              | [] => addgroup groups (digit_val e) (parse_template groups s2)
              end
            else
              match template_escape e with
              | Some x => cons (TLit x) <$> parse_template groups s2
              | None =>
                  if is_ascii_letter e then None
                  else (λ l, TLit c :: TLit e :: l) <$> parse_template groups s2
              end
        end
  end
with parse_group_name (groups : nat) (name : text) (s : text) {struct s}
    : option (list titem) :=
  match s with
  | [] => None
  | c :: s' =>
      if chr_eqb c ">" then
        match name with
        | [] => None
        | _ =>
            if forallb is_digit name
            then addgroup groups (int_of_digits name) (parse_template groups s')
            else None
        end
      else parse_group_name groups (name ++ [c]) s'
  end.

(** [expand_template(template, match)] *)
Definition expand_item (m : match_obj) (it : titem) : text :=
  match it with
  | TLit c => [c]
  | TGroup 0 => m_group0 m
  | TGroup n => group n (m_groups m)
  end.

Definition expand_template (tmpl : list titem) (m : match_obj) : text :=
  concat (expand_item m <$> tmpl).

(** [pattern.groups] *)
Fixpoint ngroups (r : regex) : nat :=
  match r with
  | Lit _ | Cls _ | Star _ => 0
  | Seq r1 r2 => Nat.max (ngroups r1) (ngroups r2)
  | Opt r1 => ngroups r1
  | Grp n r1 => Nat.max n (ngroups r1)
  end.

(** The loop of [pattern.sub] over the text [s] that starts at offset
    [pos]: [skip] characters of [s] still belong to the match replaced
    last.  An empty match (none of the patterns here has one) is replaced
    and the walk moves on by one character. *)
Fixpoint sub_walk (r : regex) (tmpl : list titem) (pos skip : nat) (s : text) : text :=
  match s with
  | [] =>
      match skip, match_at r pos [] with
      | 0, Some m => expand_template tmpl m
      | _, _ => []
      end
  | c :: s' =>
      match skip with
      | S k => sub_walk r tmpl (S pos) k s'
      | 0 =>
          match match_at r pos s with
          | Some m =>
              expand_template tmpl m ++
                match length (m_group0 m) with
                | 0 => c :: sub_walk r tmpl (S pos) 0 s'
                | S k => sub_walk r tmpl (S pos) k s'
                end
          | None => c :: sub_walk r tmpl (S pos) 0 s'
          end
      end
  end.

(** [pattern.sub(repl, s)] for a template text [repl]; [None] when the
    template does not parse. *)
Definition re_sub (r : regex) (repl s : text) : option text :=
  tmpl ← parse_template (ngroups r) repl;
  Some (sub_walk r tmpl 0 0 s).

(** *** The patcher *)

Inductive update_error : Type :=
| InitFileNotFound      (* ServerProviderInit.h not found at ... *)
| PlaceholderNotFound   (* Could not find placeholder Init() function to replace *)
| UpdateException.      (* Error updating ServerProviderInit.h: ... *)

Record update_result : Type := UpdateResult {
  success : bool;
  update_err : option update_error
}.

(** The loop
    [while insert_pos < init_start and content[insert_pos:insert_pos+1].strip() == '']
    with [n = init_start - insert_pos] turns left. *)
Fixpoint skip_blank (content : text) (insert_pos n : nat) : nat :=
  match n with
  | 0 => insert_pos
  | S n' =>
      if text_eqb (strip (take 1 (drop insert_pos content))) []
      then skip_blank content (S insert_pos) n'
      else insert_pos
  end.

(** [content[:insert_pos] + include_statements + '\n\n' + content[insert_pos:]] *)
Definition insert_at (content : text) (insert_pos : nat) (include_statements : text) : text :=
  take insert_pos content ++ include_statements ++ [LF; LF] ++ drop insert_pos content.

(** The offset the include statements go to, for a placeholder that
    starts at [init_start]. *)
Definition include_insert_pos (content : text) (init_start : nat) : nat :=
  let last_include_pos := rfind (T "#include") content init_start in
  let last_comment_pos := rfind (T "/**") content init_start in
  if negb (last_include_pos =? -1)%Z then
    let insert_pos := Z.to_nat (find [LF] content (Z.to_nat last_include_pos) + 1) in
    skip_blank content insert_pos (init_start - insert_pos)
  else if negb (last_comment_pos =? -1)%Z then
    let comment_end := Z.to_nat (find (T "*/") content (Z.to_nat last_comment_pos) + 2) in
    let insert_pos := Z.to_nat (find [LF] content comment_end + 1) in
    skip_blank content insert_pos (init_start - insert_pos)
  else init_start.

(** The block [if include_statements: ...]: the content with the include
    statements added. *)
Definition insert_includes (content include_statements : text) : text :=
  match include_statements with
  | [] => content
  | _ =>
      match search init_pattern content with
      | Some init_match =>
          insert_at content (include_insert_pos content (m_start init_match))
                    include_statements
      | None => content
      end
  end.

(** The template [r'\1\n' + registration_code + r'\2']. *)
Definition replacement (registration_code : text) : text :=
  [BSL; "1"%char; BSL; "n"%char] ++ registration_code ++ [BSL; "2"%char].

(** [update_server_factory_init(library_dir, registration_code, include_statements)]
    on the file [library_dir/include/ServerProviderInit.h]: the result
    dictionary and the text written to the file, [None] when the file is
    not written.  An exception, be it the [re.error] of a replacement
    template that does not parse or the [OSError] of an [open] that
    fails, ends in the handler [except Exception]. *)
Definition update_server_factory_init (init_file : fs_entry)
    (registration_code include_statements : text) : update_result * option text :=
  match init_file with
  | Missing => (UpdateResult false (Some InitFileNotFound), None)
  | NotAFile => (UpdateResult false (Some UpdateException), None)
  | File content =>
      let content := insert_includes content include_statements in
      match re_sub init_pattern (replacement registration_code) content with
      | None => (UpdateResult false (Some UpdateException), None)
      | Some new_content =>
          if text_eqb new_content content && text_eqb include_statements []
          then (UpdateResult false (Some PlaceholderNotFound), None)
          else (UpdateResult true None, Some new_content)
      end
  | ReadOnly content =>
      (* as for a file, but [open(init_file, 'w')] raises *)
      let content := insert_includes content include_statements in
      match re_sub init_pattern (replacement registration_code) content with
      | None => (UpdateResult false (Some UpdateException), None)
      | Some new_content =>
          if text_eqb new_content content && text_eqb include_statements []
          then (UpdateResult false (Some PlaceholderNotFound), None)
          else (UpdateResult false (Some UpdateException), None)
      end
  | Unreadable => (UpdateResult false (Some UpdateException), None)
  end.

(** *** The command line *)

(** The files of the machine: what each absolute path holds.  A path
    that is not in the map does not exist. *)
Abbreviation file_system := (gmap text fs_entry).

Definition entry (fs : file_system) (path : text) : fs_entry :=
  default Missing (fs !! path).

(** The file system after a call that wrote [written] to [path], or
    wrote nothing. *)
Definition write_file (fs : file_system) (path : text) (written : option text)
    : file_system :=
  match written with
  | Some t => <[path := File t]> fs
  | None => fs
  end.

Section Main.

(** [str(Path(p).resolve())] *)
Variable resolve : text -> text.

(** The absolute path of [library_dir / "include" / "ServerProviderInit.h"]. *)
Variable init_file_of : text -> text.

(** The dictionary [main] appends to [all_registrations] for a match. *)
Definition registration_of (mt : match_info) : registration :=
  Registration (class_name mt) (server_impl_content mt) (file_path mt).

(** One turn of [for file_path in file_paths], on the file system and
    [all_registrations]. *)
Definition main_step (st : file_system * list registration) (path : text)
    : file_system * list registration :=
  let full_file_path := resolve path in
  let r := check_and_comment_server_impl full_file_path (entry st.1 full_file_path) in
  let fs := write_file st.1 full_file_path r.2 in
  match error r.1 with
  | Some _ => (fs, st.2)
  | None =>
      if found r.1 then (fs, st.2 ++ (registration_of <$> matches r.1))
      else (fs, st.2)
  end.

(** [main()] for the command line [argv]: the exit code and the file
    system it leaves. *)
Definition main (argv : list text) (fs : file_system) : nat * file_system :=
  if length argv <? 3 then (1, fs)
  else
    let library_dir := nth 1 argv [] in
    let file_paths := drop 2 argv in
    let st := fold_left main_step file_paths (fs, []) in
    let all_registrations := st.2 in
    match all_registrations with
    | [] => (0, st.1)
    | _ =>
        let include_statements := generate_include_statements resolve all_registrations in
        let registration_code := generate_registration_code all_registrations in
        let init_file := init_file_of library_dir in
        let r := update_server_factory_init (entry st.1 init_file)
                   registration_code include_statements in
        let fs' := write_file st.1 init_file r.2 in
        match update_err r.1 with
        | Some _ => (1, fs')
        | None => if success r.1 then (0, fs') else (1, fs')
        end
    end.

End Main.

(** ** What the patterns denote

    [re_matches r cs w cs'] : the pattern [r] matches exactly the text [w],
    taking the captured groups from [cs] to [cs']. *)

Inductive re_matches : regex -> caps -> text -> caps -> Prop :=
| M_lit l cs : re_matches (Lit l) cs l cs
| M_cls p c cs : p c = true -> re_matches (Cls p) cs [c] cs
| M_star p w cs : Forall (λ c, p c = true) w -> re_matches (Star p) cs w cs
| M_seq r1 r2 cs w1 cs1 w2 cs2 :
    re_matches r1 cs w1 cs1 -> re_matches r2 cs1 w2 cs2 ->
    re_matches (Seq r1 r2) cs (w1 ++ w2) cs2
| M_opt_some r cs w cs' : re_matches r cs w cs' -> re_matches (Opt r) cs w cs'
| M_opt_none r cs : re_matches (Opt r) cs [] cs
| M_grp n r cs w cs' : re_matches r cs w cs' -> re_matches (Grp n r) cs w ((n, w) :: cs').

(** [occurs r s] : some part of [s] matches [r]. *)
Definition occurs (r : regex) (s : text) : Prop :=
  ∃ pre w post cs, s = pre ++ w ++ post ∧ re_matches r [] w cs.

Definition all_space (s : text) : Prop := Forall (λ c, isspace c = true) s.

(** No white space at the head of a text. *)
Definition head_solid (s : text) : Prop :=
  match s with
  | c :: _ => isspace c = false
  | [] => True
  end.

(** The distinct members of a list, each at the place of its first
    occurrence. *)
Definition first_occurrences (l : list text) : list text :=
  fold_left (λ acc p, if decide (p ∈ acc) then acc else acc ++ [p]) l [].

(** ** The scanner, line by line

    What one turn of the outer loop decides for line [i]: the match of the
    annotation pattern and the class name when the marker is accepted. *)

Definition unprocessed_marker (line : text) : bool :=
  negb (is_match (search server_impl_processed_pattern (strip line)))
  && is_match (search server_impl_annotation_pattern (strip line)).

Definition qualifying_class (line : text) : bool :=
  is_match (search class_pattern line).

Definition accept (lines : list text) (i : nat) (line : text)
    : option (match_obj * text) :=
  if is_match (search server_impl_processed_pattern (strip line)) then None
  else
    match search server_impl_annotation_pattern (strip line) with
    | None => None
    | Some server_impl_match =>
        match find_class lines i with
        | None => None
        | Some cls => Some (server_impl_match, cls)
        end
    end.

Definition rewrite_line (lines : list text) (il : nat * text) : text :=
  match accept lines il.1 il.2 with
  | Some (server_impl_match, _) => processed_line server_impl_match
  | None => il.2
  end.

Definition match_of (full_file_path : text) (lines : list text) (il : nat * text)
    : option match_info :=
  match accept lines il.1 il.2 with
  | Some (server_impl_match, cls) =>
      Some (MatchInfo (il.1 + 1) cls
              (extract_bracket_content (group 2 (m_groups server_impl_match)))
              full_file_path)
  | None => None
  end.

Definition nonempty {A : Type} (l : list A) : bool :=
  match l with
  | [] => false
  | _ :: _ => true
  end.

(** ** Sample inputs *)

Definition sample_path : text := T "/srv/lib/Foo.h".

(** An indented marker line, a class line and a file with [n] empty
    lines between the two. *)
Definition sample_marker : text :=
  T "    /* @ServerImpl(" ++ [DQ] ++ T "svc" ++ [DQ] ++ T ") */" ++ [LF].

Definition sample_class : text := T "class Foo final : public IServer {" ++ [LF].

Definition sample_file (n : nat) : text :=
  sample_marker ++ concat (replicate n [LF]) ++ sample_class.

(** The characters a match of the class pattern is made of. *)
Definition class_char (c : ascii) : bool :=
  isspace c || isword c || chr_eqb c ":".

(** ** Lines

    A line as [readlines] gives it: ended by its one line end, or, the
    last line of a file only, without a line end. *)

Definition terminated (l : text) : Prop := ∃ body, l = body ++ [LF] ∧ LF ∉ body.

Definition open_line (l : text) : Prop := l ≠ [] ∧ LF ∉ l.

Definition wf_lines (ls : list text) : Prop :=
  ∀ i l, ls !! i = Some l → terminated l ∨ (open_line l ∧ S i = length ls).

(** ** The patcher: what its properties are stated with *)

(** The registration code stands for itself in the replacement template. *)
Definition no_backslash (code : text) : Prop := BSL ∉ code.

(** The replacement template built from the registration code parses. *)
Definition valid_template (code : text) : Prop :=
  is_Some (parse_template (ngroups init_pattern) (replacement code)).

(** What replaces a placeholder when the registration code has no
    backslash: the signature, a line end, the code and the closing brace. *)
Definition patched (code : text) (m : match_obj) : text :=
  group 1 (m_groups m) ++ [LF] ++ code ++ group 2 (m_groups m).

(** The spec on a target file without placeholder: the operation is a
    no-op with an error, whatever the include list. *)
Definition reports_error_when_absent (content code include_statements : text) : Prop :=
  ¬ occurs init_pattern content →
  let res := (update_server_factory_init (File content) code include_statements).1 in
  success res = false ∧ update_err res ≠ None.

(** [replaced_all r f s out] : [out] is [s] with every match of [r],
    taken leftmost first and without overlap, replaced by what [f] gives
    for it. *)
Inductive replaced_all (r : regex) (f : match_obj -> text) : text -> text -> Prop :=
| ra_done s : ¬ occurs r s → replaced_all r f s s
| ra_step pre m pos out :
    (∀ k, k < length pre →
          match_at r k (drop k (pre ++ m_group0 m ++ m_rest m)) = None) →
    match_at r pos (m_group0 m ++ m_rest m) = Some m →
    m_group0 m ≠ [] →
    replaced_all r f (m_rest m) out →
    replaced_all r f (pre ++ m_group0 m ++ m_rest m) (pre ++ f m ++ out).

(** More sample inputs: a target file without placeholder, one with two
    placeholders, an include list and a registration whose payload holds
    a backslash. *)
Definition plain_content : text := T "int x;" ++ [LF].

Definition sample_placeholder : text := T "inline Bool Init() { return false; }" ++ [LF].

Definition twice_content : text := sample_placeholder ++ sample_placeholder.

Definition sample_includes : text := include_directive sample_path.

Definition escaped_registration : registration :=
  Registration (T "Foo") (T "a\nb") sample_path.

Definition is_match_escape (e : ascii) : bool :=
  match template_escape e with
  | Some _ => true
  | None => false
  end.

(** A letter after a backslash that [parse_template] rejects: an ASCII
    letter that is no escape of the table and not the g of a group
    reference. *)
Definition bad_escape (e : ascii) : bool :=
  is_ascii_letter e && negb (is_match_escape e) && negb (chr_eqb e "g").

(** [sub in s] *)
Fixpoint contains (sub s : text) : bool :=
  is_prefix sub s
  || match s with
     | [] => false
     | _ :: s' => contains sub s'
     end.

(** Target files: a placeholder below an include line, a blank line and
    a comment; a placeholder below a documentation comment; a placeholder
    with nothing above it. *)
Definition header_with_include : text :=
  T "#include <Server.h>" ++ [LF; LF] ++ T "// init" ++ [LF] ++ sample_placeholder.

Definition header_with_comment : text :=
  T "/** Registers the servers. */ // generated" ++ [LF; LF] ++ sample_placeholder.

Definition header_bare : text := T "#pragma once" ++ [LF] ++ sample_placeholder.

(** ** The command line: what its properties are stated with *)

(** The registrations [main] takes from the result of a scan: those of
    its matches, and none when the scan ended with an error. *)
Definition kept_registrations (r : scan_result) : list registration :=
  match error r with
  | Some _ => []
  | None => registration_of <$> matches r
  end.

(** The registrations [main] takes from a scan of the file at [path]. *)
Definition registrations_in (fs : file_system) (path : text) : list registration :=
  kept_registrations (check_and_comment_server_impl path (entry fs path)).1.

(** The file at [path] after a scan. *)
Definition scanned (fs : file_system) (path : text) : fs_entry :=
  file_after (entry fs path) (check_and_comment_server_impl path (entry fs path)).2.

(** The registrations of a list of absolute paths: those of each distinct
    path, in the order in which the paths first occur. *)
Definition registrations_found (fs : file_system) (paths : list text)
    : list registration :=
  first_occurrences paths ≫= registrations_in fs.

(** A command line and a machine: one source file with a marker, and
    the target file below the library directory. *)
Definition sample_init_file_of (library_dir : text) : text :=
  library_dir ++ T "/include/ServerProviderInit.h".

Definition sample_argv : list text :=
  [T "L3_process_and_register.py"; T "/srv/lib"; sample_path].

Definition sample_fs (target : text) : file_system :=
  <[sample_init_file_of (T "/srv/lib") := File target]>
    (<[sample_path := File (sample_file 0)]> ∅).

(** The characters a match of the placeholder pattern is made of. *)
Definition init_char (c : ascii) : bool :=
  isspace c || existsb (chr_eqb c) (T "inlineBoolInit(){}returnfalse;").

(* ================================================================== *)
(** * Properties *)

(** ** Texts *)

Lemma chr_eqb_eq a b : chr_eqb a b = true ↔ a = b.
Proof. apply Ascii.eqb_eq. Qed.

Lemma chr_eqb_refl a : chr_eqb a a = true.
Proof. by apply chr_eqb_eq. Qed.

Lemma chr_eqb_neq a b : chr_eqb a b = false ↔ a ≠ b.
Proof. apply Ascii.eqb_neq. Qed.

Lemma text_eqb_eq (a b : text) : text_eqb a b = true ↔ a = b.
Proof. unfold text_eqb. by rewrite bool_decide_eq_true. Qed.

Lemma text_eqb_neq (a b : text) : text_eqb a b = false ↔ a ≠ b.
Proof. unfold text_eqb. by rewrite bool_decide_eq_false. Qed.

Lemma lstrip_split (s : text) :
  ∃ l, s = l ++ lstrip s ∧ all_space l ∧ head_solid (lstrip s).
Proof.
  induction s as [|c s (l & Hs & Hl & Hh)]; simpl.
  - exists []. split_and!; [done | constructor | done].
  - destruct (isspace c) eqn:Hc.
    + exists (c :: l). split_and!; [by rewrite Hs at 1 | by constructor | done].
    + exists []. split_and!; [done | constructor | done].
Qed.

Lemma lstrip_solid (s : text) : head_solid s → lstrip s = s.
Proof. destruct s as [|c s]; simpl; [done|]. by intros ->. Qed.

Lemma lstrip_app_space (l s : text) : all_space l → lstrip (l ++ s) = lstrip s.
Proof. induction 1 as [|c l Hc _ IH]; simpl; [done|]. by rewrite Hc. Qed.

Lemma rstrip_split (s : text) :
  ∃ r, s = rstrip s ++ r ∧ all_space r ∧ head_solid (rev (rstrip s)).
Proof.
  unfold rstrip. destruct (lstrip_split (rev s)) as (l & Hs & Hl & Hh).
  exists (rev l). split_and!.
  - by rewrite <- rev_app_distr, <- Hs, rev_involutive.
  - by apply Forall_rev.
  - by rewrite rev_involutive.
Qed.

Lemma rstrip_app_space (s r : text) : all_space r → rstrip (s ++ r) = rstrip s.
Proof.
  intros Hr. unfold rstrip. rewrite rev_app_distr.
  rewrite lstrip_app_space; [done | by apply Forall_rev].
Qed.

Lemma rstrip_solid (s : text) : head_solid (rev s) → rstrip s = s.
Proof. intros H. unfold rstrip. by rewrite lstrip_solid, rev_involutive. Qed.

Lemma rstrip_head_solid (s : text) : head_solid s → head_solid (rstrip s).
Proof.
  intros Hs. destruct (rstrip_split s) as (r & Heq & Hr & _).
  destruct (rstrip s) as [|c t] eqn:E; [done|].
  rewrite Heq in Hs. exact Hs.
Qed.

(** [strip] takes white space, and nothing else, off both ends. *)
Lemma strip_split (s : text) :
  ∃ l r, s = l ++ strip s ++ r ∧ all_space l ∧ all_space r
         ∧ head_solid (strip s) ∧ head_solid (rev (strip s)).
Proof.
  unfold strip. destruct (lstrip_split s) as (l & Hs & Hl & Hh).
  destruct (rstrip_split (lstrip s)) as (r & Hs' & Hr & Hh').
  exists l, r. split_and!; try done.
  - by rewrite <- Hs'.
  - by apply rstrip_head_solid.
Qed.

(** A text with solid ends is what [strip] returns for it, whatever white
    space stands around it. *)
Lemma strip_framed (l s r : text) :
  all_space l → all_space r → head_solid s → head_solid (rev s) →
  strip (l ++ s ++ r) = s.
Proof.
  intros Hl Hr Hs Hs'. unfold strip.
  rewrite lstrip_app_space by done.
  destruct s as [|c s].
  - simpl. rewrite <- (app_nil_r r), lstrip_app_space by done. done.
  - rewrite lstrip_solid by done.
    rewrite rstrip_app_space by done. by apply rstrip_solid.
Qed.

(** ** Payload extraction *)

Lemma extract_bracket_content_unfold (content : text) :
  extract_bracket_content content =
    if (startswith (strip content) DQ && endswith (strip content) DQ)
       || (startswith (strip content) SQ && endswith (strip content) SQ)
    then slice_1_m1 (strip content)
    else strip content.
Proof. by destruct content. Qed.

Lemma endswith_snoc (s : text) (q c : ascii) : endswith (s ++ [q]) c = chr_eqb q c.
Proof. unfold endswith. by rewrite last_snoc. Qed.

Lemma startswith_head (s : text) (q : ascii) :
  startswith s q = true ↔ head s = Some q.
Proof.
  destruct s as [|x s]; simpl; [done|]. rewrite chr_eqb_eq.
  split; [by intros -> | by intros [= ->]].
Qed.

Lemma endswith_last (s : text) (q : ascii) :
  endswith s q = true ↔ last s = Some q.
Proof.
  unfold endswith. destruct (last s) as [x|]; [|done]. rewrite chr_eqb_eq.
  split; [by intros -> | by intros [= ->]].
Qed.

(** C4.  [extract_bracket_content] trims the white space around the
    payload; a trimmed text that starts and ends with a double quote, or
    starts and ends with a single quote, loses that first and that last
    character (a trimmed text that is one quote character alone comes out
    empty); any other trimmed text, one whose first character or whose
    last character is not that quote, for the double and for the single
    quote, is returned as it is.  Every trimmed text is of one of these
    kinds.  So the payload foo in double quotes gives foo, the payload
    bar gives bar, and a text with a quote at one end only keeps it. *)
Theorem extract_bracket_content_spec (content : text) :
  let trimmed := strip content in
  (∃ l r, content = l ++ trimmed ++ r ∧ all_space l ∧ all_space r
          ∧ head_solid trimmed ∧ head_solid (rev trimmed))
  ∧ (∀ q body, q = DQ ∨ q = SQ → trimmed = q :: body ++ [q] →
       extract_bracket_content content = body)
  ∧ (∀ q, q = DQ ∨ q = SQ → trimmed = [q] → extract_bracket_content content = [])
  ∧ ((∀ q, q = DQ ∨ q = SQ → head trimmed ≠ Some q ∨ last trimmed ≠ Some q) →
       extract_bracket_content content = trimmed)
  ∧ ((∃ q, (q = DQ ∨ q = SQ)
           ∧ ((∃ body, trimmed = q :: body ++ [q]) ∨ trimmed = [q]))
     ∨ (∀ q, q = DQ ∨ q = SQ → head trimmed ≠ Some q ∨ last trimmed ≠ Some q))
  ∧ extract_bracket_content (DQ :: T "foo" ++ [DQ]) = T "foo"
  ∧ extract_bracket_content (T "bar") = T "bar"
  ∧ extract_bracket_content (T "abc" ++ [DQ]) = T "abc" ++ [DQ]
  ∧ extract_bracket_content (DQ :: T "abc" ++ [SQ]) = DQ :: T "abc" ++ [SQ].
Proof.
  intros trimmed. split_and!.
  - apply strip_split.
  - intros q body Hq Ht. rewrite extract_bracket_content_unfold.
    fold trimmed. rewrite Ht. rewrite app_comm_cons, !endswith_snoc. simpl.
    unfold slice_1_m1. simpl. rewrite removelast_last.
    destruct Hq as [-> | ->]; by vm_compute.
  - intros q Hq Ht. rewrite extract_bracket_content_unfold. fold trimmed.
    rewrite Ht. destruct Hq as [-> | ->]; by vm_compute.
  - intros Hno. rewrite extract_bracket_content_unfold. fold trimmed.
    destruct (startswith trimmed DQ && endswith trimmed DQ) eqn:E1.
    { apply andb_true_iff in E1 as [H1%startswith_head H2%endswith_last].
      destruct (Hno DQ (or_introl eq_refl)) as [H | H]; by destruct H. }
    destruct (startswith trimmed SQ && endswith trimmed SQ) eqn:E2.
    { apply andb_true_iff in E2 as [H1%startswith_head H2%endswith_last].
      destruct (Hno SQ (or_intror eq_refl)) as [H | H]; by destruct H. }
    done.
  - destruct trimmed as [|c t]; [right; intros q _; by left|].
    destruct t as [|d t _] using rev_ind.
    + destruct (decide (c = DQ ∨ c = SQ)) as [Hc | Hc].
      * left. exists c. split; [done | by right].
      * right. intros q Hq. left. simpl. intros [= ->]. by apply Hc.
    + destruct (decide ((c = DQ ∨ c = SQ) ∧ d = c)) as [[Hc ->] | Hc].
      * left. exists c. split; [done|]. left. by exists t.
      * right. intros q Hq.
        destruct (decide (c = q)) as [-> | Hne]; [|left; simpl; by intros [= ->]].
        right. rewrite app_comm_cons, last_snoc. intros [= ->]. by apply Hc.
  - by vm_compute.
  - by vm_compute.
  - by vm_compute.
  - by vm_compute.
Qed.

(** ** Code synthesis *)

Lemma join_cons (sep p : text) (ps : list text) :
  ps ≠ [] → join sep (p :: ps) = p ++ sep ++ join sep ps.
Proof. by destruct ps. Qed.

(** A joined list that ends in [x]: every part before [x] is followed by
    the separator. *)
Lemma join_snoc (sep x : text) (l : list text) :
  join sep (l ++ [x]) = concat ((λ p, p ++ sep) <$> l) ++ x.
Proof.
  induction l as [|p l IH]; [done|].
  rewrite <- app_comm_cons, join_cons by (by destruct l).
  rewrite IH. simpl. by rewrite <- !app_assoc.
Qed.

Lemma registration_lines (regs : list registration) (acc : list text) :
  fold_left (λ lines reg, lines ++ [register_statement reg]) regs acc
  = acc ++ (register_statement <$> regs).
Proof.
  revert acc. induction regs as [|r regs IH]; intros acc; simpl.
  - by rewrite app_nil_r.
  - by rewrite IH, <- app_assoc.
Qed.

(** C6.  For a list of records that is not empty the registration body is
    one statement per record, in the order of the records, each a call of
    ServerProvider::RegisterServer with the class name of the record as
    template argument and its payload between double quotes as argument,
    each followed by a line end, and then the statement "return true;".
    For the empty list the body is the one statement "return false;". *)
Theorem generate_registration_code_spec :
  generate_registration_code [] = T "    return false;"
  ∧ (∀ reg regs,
       generate_registration_code (reg :: regs)
       = join [LF] ((register_statement <$> reg :: regs) ++ [T "    return true;"])
       ∧ generate_registration_code (reg :: regs)
         = concat ((λ r, register_statement r ++ [LF]) <$> reg :: regs)
             ++ T "    return true;")
  ∧ (∀ reg,
       register_statement reg
       = T "    ServerProvider::RegisterServer<" ++ reg_class_name reg ++ T ">("
           ++ [DQ] ++ reg_server_impl_content reg ++ [DQ] ++ T ");").
Proof.
  split_and!; [done | | done].
  intros reg regs.
  assert (generate_registration_code (reg :: regs)
          = join [LF] ((register_statement <$> reg :: regs) ++ [T "    return true;"])) as E.
  { unfold generate_registration_code. by rewrite registration_lines. }
  split; [done|]. rewrite E, join_snoc. by rewrite <- list_fmap_compose.
Qed.

Section IncludeList.

Variable resolve : text -> text.

Lemma include_loop (regs : list registration) (uniq : list text) :
  fold_left (include_step resolve) regs
            (include_directive <$> uniq, list_to_set uniq)
  = (include_directive <$>
       fold_left (λ acc p, if decide (p ∈ acc) then acc else acc ++ [p])
                 (resolved_path resolve <$> regs) uniq,
     list_to_set
       (fold_left (λ acc p, if decide (p ∈ acc) then acc else acc ++ [p])
                  (resolved_path resolve <$> regs) uniq)).
Proof.
  revert uniq. induction regs as [|r regs IH]; intros uniq; [done|].
  simpl. unfold include_step at 2. simpl.
  destruct (decide (resolved_path resolve r ∈ uniq)) as [Hin | Hout].
  - rewrite decide_True by (by apply elem_of_list_to_set). apply IH.
  - rewrite decide_False by (by rewrite elem_of_list_to_set).
    rewrite <- IH. f_equal. f_equal.
    + by rewrite fmap_app.
    + rewrite list_to_set_app_L. simpl. set_solver.
Qed.

Lemma generate_include_statements_eq (regs : list registration) :
  generate_include_statements resolve regs
  = join [LF] (include_directive <$>
                 first_occurrences (resolved_path resolve <$> regs)).
Proof.
  destruct regs as [|r regs]; [done|].
  unfold generate_include_statements, first_occurrences.
  change (([] : list text), (∅ : gset text))
    with (include_directive <$> [], (list_to_set [] : gset text)).
  by rewrite include_loop.
Qed.

End IncludeList.

Lemma first_occurrences_snoc (l : list text) (p : text) :
  first_occurrences (l ++ [p])
  = if decide (p ∈ first_occurrences l) then first_occurrences l
    else first_occurrences l ++ [p].
Proof. unfold first_occurrences. by rewrite fold_left_app. Qed.

Lemma first_occurrences_elem (l : list text) (p : text) :
  p ∈ first_occurrences l ↔ p ∈ l.
Proof.
  induction l as [|x l IH] using rev_ind; [done|].
  rewrite first_occurrences_snoc. case_decide; set_solver.
Qed.

Lemma first_occurrences_NoDup (l : list text) : NoDup (first_occurrences l).
Proof.
  induction l as [|x l IH] using rev_ind; [constructor|].
  rewrite first_occurrences_snoc. case_decide; [done|].
  apply NoDup_app. split_and!; [done | | apply NoDup_singleton].
  intros y Hy ->%list_elem_of_singleton. done.
Qed.



(** ** The scanning loop *)

Lemma scan_line_accept (p : text) (lines : list text) (st : scan_state)
    (il : nat * text) :
  scan_line p lines st il
  = match match_of p lines il with
    | Some info =>
        ScanState (<[il.1 := rewrite_line lines il]> (st_modified_lines st)) true
                  (st_matches st ++ [info]) true
    | None => st
    end.
Proof.
  destruct il as [i line]. unfold scan_line, match_of, rewrite_line, accept. simpl.
  destruct (is_match (search server_impl_processed_pattern (strip line))); [done|].
  destruct (search server_impl_annotation_pattern (strip line)); [|done].
  by destruct (find_class lines i).
Qed.

Lemma rewrite_line_rejected (p : text) (lines : list text) (il : nat * text) :
  match_of p lines il = None → rewrite_line lines il = il.2.
Proof.
  unfold match_of, rewrite_line. by destruct (accept lines il.1 il.2) as [[??]|].
Qed.

(** The loop rewrites line by line and collects the matches in line
    order. *)
Lemma scan_fold (p : text) (lines ls : list text) (k : nat) (pre : list text)
    (st : scan_state) :
  st_modified_lines st = pre ++ ls → length pre = k →
  let news := omap (match_of p lines) (enumerate_from k ls) in
  fold_left (scan_line p lines) (enumerate_from k ls) st
  = ScanState (pre ++ (rewrite_line lines <$> enumerate_from k ls))
              (st_found st || nonempty news)
              (st_matches st ++ news)
              (st_modified st || nonempty news).
Proof.
  revert k pre st. induction ls as [|x ls IH]; intros k pre st Hl Hk;
    cbn [enumerate_from fold_left omap fmap list_fmap list_omap].
  - destruct st; simpl in *. by rewrite Hl, !orb_false_r, !app_nil_r.
  - rewrite scan_line_accept. cbn [fst snd].
    destruct (match_of p lines (k, x)) as [info|] eqn:E; cbn [fst snd].
    + rewrite (IH (S k) (pre ++ [rewrite_line lines (k, x)])); simpl.
      * rewrite <- !app_assoc. simpl. by rewrite !orb_true_r.
      * rewrite Hl, <- Hk. rewrite insert_app_r_alt by lia.
        rewrite Nat.sub_diag. simpl. by rewrite <- app_assoc.
      * rewrite length_app. simpl. lia.
    + rewrite (IH (S k) (pre ++ [x])); simpl.
      * rewrite (rewrite_line_rejected p) by done. simpl.
        by rewrite <- !app_assoc.
      * by rewrite Hl, <- app_assoc.
      * rewrite length_app. simpl. lia.
Qed.

Lemma scan_lines_eq (p : text) (lines : list text) :
  let news := omap (match_of p lines) (enumerate lines) in
  scan_lines p lines
  = ScanState (rewrite_line lines <$> enumerate lines)
              (nonempty news) news (nonempty news).
Proof. unfold scan_lines, enumerate. by rewrite (scan_fold p lines lines 0 []). Qed.

Lemma enumerate_from_lookup {A : Type} (l : list A) (k j : nat) :
  enumerate_from k l !! j = (λ x, (k + j, x)) <$> l !! j.
Proof.
  revert k j. induction l as [|x l IH]; intros k [|j]; simpl; try done.
  - by rewrite Nat.add_0_r.
  - rewrite IH. by replace (S k + j) with (k + S j) by lia.
Qed.

Lemma enumerate_elem {A : Type} (l : list A) (i : nat) (x : A) :
  (i, x) ∈ enumerate l ↔ l !! i = Some x.
Proof.
  unfold enumerate. rewrite list_elem_of_lookup. split.
  - intros [j Hj]. rewrite enumerate_from_lookup in Hj.
    destruct (l !! j) eqn:E; simplify_eq/=. done.
  - intros H. exists i. by rewrite enumerate_from_lookup, H.
Qed.

(** ** The lookahead window *)

Lemma lookahead_is_Some (lines : list text) (js : list nat) :
  is_Some (lookahead lines js)
  ↔ ∃ j, j ∈ js ∧ qualifying_class (lines !!! j) = true.
Proof.
  unfold qualifying_class. induction js as [|j js IH]; simpl.
  - split; [by intros [? ?] | intros (j & Hj & _); by apply elem_of_nil in Hj].
  - destruct (search class_pattern (lines !!! j)) as [m|] eqn:E.
    + split; [|by eauto]. intros _. exists j. rewrite E. split; [left|done].
    + rewrite IH. split.
      * intros (j' & Hj' & Hq). exists j'. split; [by right|done].
      * intros (j' & Hj' & Hq). apply elem_of_cons in Hj' as [->|Hj'].
        -- by rewrite E in Hq.
        -- by exists j'.
Qed.

(** The inner loop finds a class exactly when one of the lines [i+1] to
    [i+5] of the file qualifies. *)
Lemma find_class_is_Some (lines : list text) (i : nat) :
  is_Some (find_class lines i)
  ↔ ∃ j lj, i + 1 ≤ j ≤ i + 5 ∧ lines !! j = Some lj ∧ qualifying_class lj = true.
Proof.
  unfold find_class, py_range. rewrite lookahead_is_Some. split.
  - intros (j & Hj & Hq). apply elem_of_seq in Hj.
    assert (j < length lines) as Hlt by lia.
    apply lookup_lt_is_Some in Hlt as [lj Hlj].
    exists j, lj. split_and!; try lia; [done|].
    by rewrite (list_lookup_total_correct _ _ _ Hlj) in Hq.
  - intros (j & lj & Hj & Hlj & Hq). exists j. split.
    + apply elem_of_seq. apply lookup_lt_Some in Hlj. lia.
    + by rewrite (list_lookup_total_correct _ _ _ Hlj).
Qed.

Lemma accept_marker (lines : list text) (i : nat) (line : text) :
  unprocessed_marker line = true →
  is_Some (accept lines i line) ↔ is_Some (find_class lines i).
Proof.
  unfold unprocessed_marker, accept. intros [H1 H2]%andb_true_iff.
  apply negb_true_iff in H1. rewrite H1.
  destruct (search server_impl_annotation_pattern (strip line)); [|done].
  destruct (find_class lines i); split; intros [? ?]; by eauto.
Qed.

Lemma matches_of_file (p content : text) :
  matches (check_and_comment_server_impl p (File content)).1
  = omap (match_of p (readlines content)) (enumerate (readlines content)).
Proof. simpl. by rewrite scan_lines_eq. Qed.

(** A match is reported for line [i] exactly when the marker on it is
    accepted. *)
Lemma reported_iff_accepted (p : text) (lines : list text) (i : nat) (line : text) :
  lines !! i = Some line →
  (∃ info, info ∈ omap (match_of p lines) (enumerate lines) ∧ line_number info = i + 1)
  ↔ is_Some (accept lines i line).
Proof.
  intros Hi. split.
  - intros (info & Hin & Hn). apply list_elem_of_omap in Hin as ([j lj] & Hj & Hm).
    apply enumerate_elem in Hj. unfold match_of in Hm. simpl in Hm.
    destruct (accept lines j lj) as [[m cls]|] eqn:E; [|done].
    simplify_eq/=. assert (j = i) as -> by lia. by simplify_eq.
  - intros [[m cls] E].
    exists (MatchInfo (i + 1) cls (extract_bracket_content (group 2 (m_groups m))) p).
    split; [|done]. apply list_elem_of_omap. exists (i, line). split.
    + by apply enumerate_elem.
    + unfold match_of. simpl. by rewrite E.
Qed.

Lemma modified_lines_lookup (p : text) (lines : list text) (i : nat) (line : text) :
  lines !! i = Some line →
  st_modified_lines (scan_lines p lines) !! i = Some (rewrite_line lines (i, line)).
Proof.
  intros Hi. rewrite scan_lines_eq. simpl. rewrite list_lookup_fmap.
  unfold enumerate. by rewrite enumerate_from_lookup, Hi.
Qed.

(** C2.  An unprocessed marker on line [i] of a file is accepted, that is
    reported as a match with line number [i+1], exactly when one of the
    lines [i+1] to [i+5] that exist in the file matches the pattern of a
    qualifying class declaration.  A qualifying class on line [i+5] is
    enough; when none of the lines [i+1] to [i+5] qualifies, whatever line
    [i+6] holds, no match is reported for the marker, its line is left as
    it is, and no error is raised. *)
Theorem lookahead_window (p content : text) (i : nat) (line : text) :
  let lines := readlines content in
  let res := (check_and_comment_server_impl p (File content)).1 in
  lines !! i = Some line →
  unprocessed_marker line = true →
  ((∃ info, info ∈ matches res ∧ line_number info = i + 1)
   ↔ (∃ j lj, i + 1 ≤ j ≤ i + 5 ∧ lines !! j = Some lj ∧ qualifying_class lj = true))
  ∧ (∀ l5, lines !! (i + 5) = Some l5 → qualifying_class l5 = true →
       ∃ info, info ∈ matches res ∧ line_number info = i + 1)
  ∧ ((∀ j lj, i + 1 ≤ j ≤ i + 5 → lines !! j = Some lj → qualifying_class lj = false) →
       (∀ info, info ∈ matches res → line_number info ≠ i + 1)
       ∧ st_modified_lines (scan_lines p lines) !! i = Some line)
  ∧ error res = None.
Proof.
  intros lines res Hi Hm.
  assert ((∃ info, info ∈ matches res ∧ line_number info = i + 1)
          ↔ (∃ j lj, i + 1 ≤ j ≤ i + 5 ∧ lines !! j = Some lj
                     ∧ qualifying_class lj = true)) as Hiff.
  { unfold res. rewrite matches_of_file. fold lines.
    rewrite (reported_iff_accepted p lines i line Hi).
    rewrite (accept_marker lines i line Hm). apply find_class_is_Some. }
  split_and!; [done | | | done].
  - intros l5 H5 Hq. apply Hiff. exists (i + 5), l5. split_and!; [lia | lia | done | done].
  - intros Hnone.
    assert (¬ is_Some (accept lines i line)) as Hrej.
    { rewrite (accept_marker lines i line Hm), find_class_is_Some.
      intros (j & lj & Hj & Hlj & Hq). by rewrite (Hnone j lj Hj Hlj) in Hq. }
    split.
    + intros info Hin Hn. apply Hrej.
      apply (reported_iff_accepted p lines i line Hi). exists info. split; [|done].
      unfold res in Hin. by rewrite matches_of_file in Hin.
    + rewrite (modified_lines_lookup p lines i line Hi). f_equal.
      unfold rewrite_line. simpl.
      destruct (accept lines i line) as [[m cls]|]; [|done].
      destruct Hrej. by eexists.
Qed.

Lemma lookahead_window_witness :
  (∃ info, info ∈ matches (check_and_comment_server_impl sample_path
                             (File (sample_file 4))).1
           ∧ line_number info = 1)
  ∧ (∀ info, info ∈ matches (check_and_comment_server_impl sample_path
                               (File (sample_file 5))).1 →
             line_number info ≠ 1).
Proof.
  split.
  - destruct (lookahead_window sample_path (sample_file 4) 0 sample_marker)
      as (_ & H5 & _); [by vm_compute | by vm_compute |].
    apply (H5 sample_class); by vm_compute.
  - destruct (lookahead_window sample_path (sample_file 5) 0 sample_marker)
      as (_ & _ & H6 & _); [by vm_compute | by vm_compute |].
    apply H6. intros j lj Hj Hl.
    assert (j = 1 ∨ j = 2 ∨ j = 3 ∨ j = 4 ∨ j = 5) as Hc by lia.
    destruct Hc as [-> | [-> | [-> | [-> | ->]]]];
      vm_compute in Hl; injection Hl as <-; by vm_compute.
Defined.

(** ** The matcher against what the patterns denote *)

Lemma lit_run_Some (l s s' : text) : lit_run l s = Some s' ↔ s = l ++ s'.
Proof.
  revert s. induction l as [|a l IH]; intros s; simpl.
  - split; [by intros [= ->] | by intros ->].
  - destruct s as [|b s]; [done|].
    destruct (chr_eqb a b) eqn:E.
    + apply chr_eqb_eq in E as ->. rewrite IH. split; [by intros -> | by intros [= ->]].
    + apply chr_eqb_neq in E. split; [done | by intros [= -> _]].
Qed.

Lemma star_run_elem (p : ascii -> bool) (s rest : text) :
  rest ∈ star_run p s ↔ ∃ w, s = w ++ rest ∧ Forall (λ c, p c = true) w.
Proof.
  induction s as [|c s IH]; simpl.
  - rewrite list_elem_of_singleton. split.
    + intros ->. by exists [].
    + intros (w & E & _). symmetry in E. by apply app_eq_nil in E as [_ ->].
  - destruct (p c) eqn:Hc.
    + rewrite elem_of_app, list_elem_of_singleton, IH. split.
      * intros [(w & -> & Hw) | ->]; [exists (c :: w) | exists []]; by auto.
      * intros ([|c' w] & E & Hw); simpl in E; [by right|].
        injection E as <- ->. left. exists w. split; [done | by inversion Hw].
    + rewrite list_elem_of_singleton. split.
      * intros ->. by exists [].
      * intros ([|c' w] & E & Hw); simpl in E; [done|].
        injection E as <- ->. inversion Hw; congruence.
Qed.

Lemma take_matched (w rest : text) :
  take (length (w ++ rest) - length rest) (w ++ rest) = w.
Proof.
  rewrite length_app, Nat.add_sub. by rewrite take_app_length.
Qed.

Lemma lit_inv l cs w cs' : re_matches (Lit l) cs w cs' → w = l ∧ cs' = cs.
Proof. by inversion 1. Qed.

Lemma cls_inv p cs w cs' :
  re_matches (Cls p) cs w cs' → ∃ c, w = [c] ∧ p c = true ∧ cs' = cs.
Proof. inversion 1; subst. by eexists. Qed.

Lemma star_inv p cs w cs' :
  re_matches (Star p) cs w cs' → Forall (λ c, p c = true) w ∧ cs' = cs.
Proof. by inversion 1. Qed.

Lemma seq_inv r1 r2 cs w cs' :
  re_matches (Seq r1 r2) cs w cs' →
  ∃ w1 w2 cs1, w = w1 ++ w2 ∧ re_matches r1 cs w1 cs1 ∧ re_matches r2 cs1 w2 cs'.
Proof. inversion 1; subst. by eexists _, _, _. Qed.

Lemma opt_inv r cs w cs' :
  re_matches (Opt r) cs w cs' → re_matches r cs w cs' ∨ (w = [] ∧ cs' = cs).
Proof. inversion 1; subst; by auto. Qed.

Lemma grp_inv n r cs w cs' :
  re_matches (Grp n r) cs w cs' → ∃ cs1, cs' = (n, w) :: cs1 ∧ re_matches r cs w cs1.
Proof. inversion 1; subst. by eexists. Qed.

(** [rmatch] lists exactly the splits of the input into a matched prefix
    and a remainder. *)
Lemma rmatch_spec (r : regex) (cs : caps) (s : text) (cs' : caps) (rest : text) :
  (cs', rest) ∈ rmatch r cs s ↔ ∃ w, s = w ++ rest ∧ re_matches r cs w cs'.
Proof.
  revert cs s cs' rest.
  induction r as [l | p | p | r1 IH1 r2 IH2 | r1 IH1 | n r1 IH1];
    intros cs s cs' rest; simpl.
  - destruct (lit_run l s) as [s'|] eqn:E.
    + apply lit_run_Some in E as ->. rewrite list_elem_of_singleton. split.
      * intros [= -> ->]. exists l. split; [done | constructor].
      * intros (w & E & [-> ->]%lit_inv). by apply app_inv_head in E as ->.
    + split; [by intros ?%elem_of_nil|]. intros (w & -> & [-> ->]%lit_inv).
      assert (lit_run l (l ++ rest) = Some rest) as E' by (by apply lit_run_Some).
      congruence.
  - split.
    + destruct s as [|c s]; [by intros ?%elem_of_nil|].
      destruct (p c) eqn:Hc; [|by intros ?%elem_of_nil].
      intros [= -> ->]%list_elem_of_singleton. exists [c]. split; [done | by constructor].
    + intros (w & -> & (c & -> & Hc & ->)%cls_inv). simpl.
      rewrite Hc. by apply list_elem_of_singleton.
  - rewrite list_elem_of_fmap. split.
    + intros (x & [= -> ->] & (w & -> & Hw)%star_run_elem).
      exists w. split; [done | by constructor].
    + intros (w & -> & [Hw ->]%star_inv). exists rest. split; [done|].
      apply star_run_elem. by exists w.
  - rewrite list_elem_of_bind. split.
    + intros ([cs1 s1] & (w2 & E2 & H2)%IH2 & (w1 & -> & H1)%IH1).
      simpl in *. subst s1. exists (w1 ++ w2). split; [by rewrite <- app_assoc|].
      by econstructor.
    + intros (w & -> & (w1 & w2 & cs1 & -> & H1 & H2)%seq_inv).
      exists (cs1, w2 ++ rest). split.
      * apply IH2. by exists w2.
      * apply IH1. exists w1. split; [by rewrite <- app_assoc | done].
  - rewrite elem_of_app, list_elem_of_singleton. split.
    + intros [(w & -> & Hm)%IH1 | [= -> ->]].
      * exists w. split; [done | by apply M_opt_some].
      * exists []. split; [done | apply M_opt_none].
    + intros (w & -> & [Hm | [-> ->]]%opt_inv).
      * left. apply IH1. by exists w.
      * by right.
  - rewrite list_elem_of_fmap. split.
    + intros ([cs1 s1] & [= -> ->] & (w & -> & Hm)%IH1). simpl.
      exists w. split; [done|]. rewrite take_matched. by constructor.
    + intros (w & -> & (cs1 & -> & Hm)%grp_inv).
      exists (cs1, rest). simpl. rewrite take_matched. split; [done|].
      apply IH1. by exists w.
Qed.

(** [match_at] reports a split of the input that the pattern denotes. *)
Lemma match_at_Some (r : regex) (pos : nat) (s : text) (m : match_obj) :
  match_at r pos s = Some m →
  m_start m = pos ∧ s = m_group0 m ++ m_rest m
  ∧ re_matches r [] (m_group0 m) (m_groups m).
Proof.
  unfold match_at. destruct (rmatch r [] s) as [|[cs rest] l] eqn:E; [done|].
  intros [= <-]. simpl.
  assert ((cs, rest) ∈ rmatch r [] s) as (w & -> & Hm)%rmatch_spec
    by (rewrite E; left).
  by rewrite take_matched.
Qed.

Lemma match_at_None (r : regex) (pos : nat) (s : text) :
  match_at r pos s = None ↔ ∀ w rest cs, s = w ++ rest → ¬ re_matches r [] w cs.
Proof.
  unfold match_at. destruct (rmatch r [] s) as [|[cs rest] l] eqn:E.
  - split; [|done]. intros _ w rest cs Hs Hm.
    assert ((cs, rest) ∈ rmatch r [] s) as Hin by (apply rmatch_spec; eauto).
    rewrite E in Hin. by apply elem_of_nil in Hin.
  - split; [done|]. intros Hno. exfalso.
    assert ((cs, rest) ∈ rmatch r [] s) as (w & Hs & Hm)%rmatch_spec
      by (rewrite E; left).
    by apply (Hno w rest cs).
Qed.

(** [search] reports the leftmost place where the pattern matches. *)
Lemma search_from_Some (r : regex) (pos : nat) (s : text) (m : match_obj) :
  search_from r pos s = Some m →
  ∃ pre, s = pre ++ m_group0 m ++ m_rest m
         ∧ m_start m = pos + length pre
         ∧ re_matches r [] (m_group0 m) (m_groups m)
         ∧ (∀ k, k < length pre → match_at r (pos + k) (drop k s) = None).
Proof.
  revert pos. induction s as [|c s IH]; intros pos; simpl.
  - destruct (match_at r pos []) as [m'|] eqn:E; [|done].
    intros [= ->]. apply match_at_Some in E as (? & ? & ?).
    exists []. split_and!; [done | simpl; lia | done | simpl; lia].
  - destruct (match_at r pos (c :: s)) as [m'|] eqn:E.
    + intros [= ->]. apply match_at_Some in E as (? & ? & ?).
      exists []. split_and!; [done | simpl; lia | done | simpl; lia].
    + intros (pre & -> & Hst & Hm & Hleft)%IH.
      exists (c :: pre). split_and!; [done | simpl; lia | done |].
      intros [|k] Hk; simpl in *.
      * rewrite Nat.add_0_r. rewrite <- E. done.
      * replace (pos + S k) with (S pos + k) by lia. apply Hleft. lia.
Qed.

Lemma match_at_pos (r : regex) (pos pos' : nat) (s : text) :
  match_at r pos s = None → match_at r pos' s = None.
Proof. unfold match_at. by destruct (rmatch r [] s) as [|[??]?]. Qed.

Lemma search_from_None (r : regex) (pos : nat) (s : text) :
  search_from r pos s = None ↔ ¬ occurs r s.
Proof.
  revert pos. induction s as [|c s IH]; intros pos; simpl.
  - destruct (match_at r pos []) as [m|] eqn:E.
    + split; [done|]. intros Hno. exfalso. apply Hno.
      apply match_at_Some in E as (_ & Hs & Hm).
      exists [], (m_group0 m), (m_rest m), (m_groups m). by split.
    + split; [|done]. intros _ (pre & w & post & cs & Hs & Hm).
      destruct pre; [|done]. simpl in Hs.
      by apply (proj1 (match_at_None r pos []) E w post cs).
  - destruct (match_at r pos (c :: s)) as [m|] eqn:E.
    + split; [done|]. intros Hno. exfalso. apply Hno.
      apply match_at_Some in E as (_ & Hs & Hm).
      exists [], (m_group0 m), (m_rest m), (m_groups m). by split.
    + rewrite IH. split.
      * intros Hno (pre & w & post & cs & Hs & Hm). destruct pre as [|c' pre].
        -- by apply (proj1 (match_at_None r pos (c :: s)) E w post cs).
        -- injection Hs as -> ->. apply Hno. by exists pre, w, post, cs.
      * intros Hno (pre & w & post & cs & -> & Hm). apply Hno.
        by exists (c :: pre), w, post, cs.
Qed.

Lemma search_is_match (r : regex) (s : text) :
  is_match (search r s) = true ↔ occurs r s.
Proof.
  unfold search. destruct (search_from r 0 s) as [m|] eqn:E; simpl.
  - split; [|done]. intros _.
    apply search_from_Some in E as (pre & Hs & _ & Hm & _).
    by exists pre, (m_group0 m), (m_rest m), (m_groups m).
  - apply search_from_None in E. split; [done | by intros ?].
Qed.

Lemma search_no_match (r : regex) (s : text) :
  is_match (search r s) = false ↔ ¬ occurs r s.
Proof. rewrite <- search_is_match. by destruct (is_match (search r s)). Qed.

Lemma search_Some (r : regex) (s : text) (m : match_obj) :
  search r s = Some m →
  ∃ pre, s = pre ++ m_group0 m ++ m_rest m
         ∧ m_start m = length pre
         ∧ re_matches r [] (m_group0 m) (m_groups m)
         ∧ (∀ k, k < length pre → match_at r k (drop k s) = None).
Proof. intros H. by apply search_from_Some in H. Qed.

(** ** The shapes the patterns of the scripts match *)

Ltac inv_re :=
  repeat match goal with
  | H : re_matches (Seq _ _) _ _ _ |- _ =>
      apply seq_inv in H as (? & ? & ? & ? & ? & ?); subst
  | H : re_matches (Lit _) _ _ _ |- _ => apply lit_inv in H as [? ?]; subst
  | H : re_matches (Cls _) _ _ _ |- _ => apply cls_inv in H as (? & ? & ? & ?); subst
  | H : re_matches (Star _) _ _ _ |- _ => apply star_inv in H as [? ?]; subst
  | H : re_matches (Grp _ _) _ _ _ |- _ => apply grp_inv in H as (? & ? & ?); subst
  | H : re_matches (Opt _) _ _ _ |- _ => apply opt_inv in H as [? | [? ?]]; subst
  | H : re_matches (Plus _) _ _ _ |- _ => unfold Plus in H
  end.

(** A match of the annotation pattern: the indentation, the opening of
    the comment, the tag, the payload between parentheses and the end of
    the comment. *)
Lemma annotation_shape (w : text) (cs : caps) :
  re_matches server_impl_annotation_pattern [] w cs →
  ∃ a b c,
    w = group 1 cs ++ T "/*" ++ a ++ T "@ServerImpl" ++ b ++ T "("
          ++ group 2 cs ++ T ")" ++ c ++ T "*/"
    ∧ all_space (group 1 cs)
    ∧ Forall (λ x, not_rparen x = true) (group 2 cs).
Proof.
  unfold server_impl_annotation_pattern. intros H. inv_re. simpl.
  by eexists _, _, _.
Qed.

(** The processed marker matches the processed pattern. *)
Lemma processed_shape (payload : text) :
  Forall (λ x, not_rparen x = true) payload →
  re_matches server_impl_processed_pattern []
             (T "/*--@ServerImpl(" ++ payload ++ T ")--*/") [].
Proof.
  intros Hp. unfold server_impl_processed_pattern.
  change (T "/*--@ServerImpl(" ++ payload ++ T ")--*/")
    with (T "/*--" ++ [] ++ T "@ServerImpl" ++ [] ++ T "(" ++ payload
            ++ T ")" ++ [] ++ T "--*/").
  repeat first [ eapply M_seq | apply M_lit
               | apply M_star; first [assumption | constructor] ].
Qed.

Lemma Forall_literal (P : ascii -> bool) (l : text) :
  forallb P l = true → Forall (λ c, P c = true) l.
Proof. intros H. apply Forall_forall. intros x Hx. by apply (proj1 (forallb_forall P l) H), list_elem_of_In. Qed.

Lemma space_class_char (w : text) :
  Forall (λ c, isspace c = true) w → Forall (λ c, class_char c = true) w.
Proof.
  intros H. eapply Forall_impl; [exact H|].
  intros c Hc. unfold class_char. by rewrite Hc.
Qed.

Lemma word_class_char (w : text) :
  Forall (λ c, isword c = true) w → Forall (λ c, class_char c = true) w.
Proof.
  intros H. eapply Forall_impl; [exact H|].
  intros c Hc. unfold class_char. rewrite Hc. by rewrite orb_true_r.
Qed.

(** A match of the class pattern starts with the word class and holds
    white space, word characters and colons only. *)
Lemma class_shape (w : text) (cs : caps) :
  re_matches class_pattern [] w cs →
  Forall (λ c, class_char c = true) w ∧ ∃ w', w = T "class" ++ w'.
Proof.
  unfold class_pattern. intros H. inv_re.
  all: split; [|by eexists].
  all: repeat first
         [ apply Forall_app; split
         | apply Forall_literal; reflexivity
         | apply space_class_char; first [assumption | by repeat constructor]
         | apply word_class_char; first [assumption | by repeat constructor] ].
Qed.

(** A part [w] of a text that avoids the character [d] lies on one side
    of any [d] in the text. *)
Lemma infix_split_at (pre w post x y : text) (d : ascii) :
  pre ++ w ++ post = x ++ d :: y → d ∉ w →
  (∃ post', x = pre ++ w ++ post') ∨ (∃ pre', y = pre' ++ w ++ post).
Proof.
  intros E Hd. apply app_eq_inv in E as [(l & -> & E) | (l & -> & E)].
  - destruct l as [|d' l]; simpl in E.
    + destruct w as [|d' w]; simpl in E.
      * left. exists []. by rewrite !app_nil_r.
      * injection E as <- _. destruct Hd. left.
    + injection E as <- ->. right. by exists l.
  - apply app_eq_inv in E as [(l2 & -> & E) | (l2 & -> & E)].
    + destruct l2 as [|d' l2]; simpl in E.
      * left. exists []. by rewrite !app_nil_r.
      * injection E as <- _. destruct Hd. set_solver.
    + left. by exists l2.
Qed.

Lemma class_match_no (w : text) (cs : caps) (d : ascii) :
  re_matches class_pattern [] w cs → class_char d = false → d ∉ w.
Proof.
  intros [Hw _]%class_shape Hd Hin.
  rewrite Forall_forall in Hw. apply Hw in Hin. congruence.
Qed.

Lemma class_match_has_c (w : text) (cs : caps) :
  re_matches class_pattern [] w cs → "c"%char ∈ w.
Proof. intros [_ [w' ->]]%class_shape. left. Qed.

(** A class declaration found in a processed marker line lies inside the
    payload of the marker. *)
Lemma class_in_processed_line (g1 g2 : text) :
  all_space g1 →
  occurs class_pattern (g1 ++ T "/*--@ServerImpl(" ++ g2 ++ T ")--*/" ++ [LF]) →
  occurs class_pattern g2.
Proof.
  intros Hg1 (pre & w & post & cs & E & Hm).
  pose proof (class_match_has_c w cs Hm) as Hc.
  change (g1 ++ T "/*--@ServerImpl(" ++ g2 ++ T ")--*/" ++ [LF])
    with (g1 ++ T "/*--@ServerImpl" ++ "("%char :: g2 ++ ")"%char :: T "--*/" ++ [LF]) in E.
  rewrite app_assoc in E. symmetry in E.
  apply infix_split_at in E as [(post' & E) | (pre' & E)];
    [| | by apply (class_match_no w cs)].
  - exfalso. assert ("c"%char ∈ g1 ++ T "/*--@ServerImpl") as Hin
      by (rewrite E; set_solver).
    apply elem_of_app in Hin as [Hin | Hin].
    + unfold all_space in Hg1. rewrite Forall_forall in Hg1.
      by apply Hg1 in Hin.
    + revert Hin. compute_done.
  - symmetry in E.
    apply infix_split_at in E as [(post' & E) | (pre'' & E)];
      [| | by apply (class_match_no w cs)].
    + by exists pre', w, post', cs.
    + exfalso. assert ("c"%char ∈ T "--*/" ++ [LF]) as Hin
        by (rewrite E; set_solver).
      revert Hin. compute_done.
Qed.

(** ** Lines of a file *)

Lemma concat_readlines (s : text) : concat (readlines s) = s.
Proof.
  induction s as [|c s IH]; [done|]. simpl.
  destruct (chr_eqb c LF); simpl; [by rewrite IH|].
  destruct (readlines s) as [|l ls]; simpl in *; by rewrite <- IH.
Qed.

Lemma readlines_terminated (body rest : text) :
  LF ∉ body → readlines (body ++ LF :: rest) = (body ++ [LF]) :: readlines rest.
Proof.
  induction body as [|c body IH]; intros Hb; cbn [readlines app].
  - by rewrite chr_eqb_refl.
  - assert (chr_eqb c LF = false) as -> by (apply chr_eqb_neq; set_solver).
    rewrite IH by set_solver. done.
Qed.

Lemma readlines_open (l : text) : open_line l → readlines l = [l].
Proof.
  intros [Hne Hl]. induction l as [|c l IH]; [done|]. simpl.
  assert (chr_eqb c LF = false) as -> by (apply chr_eqb_neq; set_solver).
  destruct l as [|c' l]; [done|]. rewrite IH; [done | done | set_solver].
Qed.

Lemma wf_lines_cons (l : text) (ls : list text) :
  wf_lines (l :: ls) → (terminated l ∨ (open_line l ∧ ls = [])) ∧ wf_lines ls.
Proof.
  intros H. split.
  - destruct (H 0 l eq_refl) as [Ht | [Ho Hlen]]; [by left|].
    right. split; [done|]. simpl in Hlen. destruct ls; [done | simpl in Hlen; lia].
  - intros i x Hi. destruct (H (S i) x Hi) as [Ht | [Ho Hlen]]; [by left|].
    right. split; [done|]. simpl in Hlen. lia.
Qed.

(** Reading back what [writelines] wrote gives the lines written. *)
Lemma readlines_concat (ls : list text) : wf_lines ls → readlines (concat ls) = ls.
Proof.
  induction ls as [|l ls IH]; [done|].
  intros [[(body & -> & Hb) | [Ho ->]] Hwf]%wf_lines_cons; simpl.
  - rewrite <- app_assoc. simpl. rewrite readlines_terminated by done.
    by rewrite IH.
  - rewrite app_nil_r. by apply readlines_open.
Qed.

Lemma readlines_wf (s : text) : wf_lines (readlines s).
Proof.
  induction s as [|c s IH]; [by intros ? ? ?|]. simpl.
  destruct (chr_eqb c LF) eqn:Ec.
  - apply chr_eqb_eq in Ec as ->. intros [|i] l Hi; simpl in *.
    + injection Hi as <-. left. exists []. split; [done | apply not_elem_of_nil].
    + destruct (IH i l Hi) as [? | [? ?]]; [by left | right; split; [done | lia]].
  - apply chr_eqb_neq in Ec. destruct (readlines s) as [|l0 ls] eqn:E.
    + intros [|i] l Hi; simpl in *; [|done]. injection Hi as <-.
      right. split; [|done]. split; [done | set_solver].
    + intros [|i] l Hi; simpl in *.
      * injection Hi as <-. destruct (IH 0 l0 eq_refl) as [(body & -> & Hb) | [[? ?] Hlen]].
        -- left. exists (c :: body). split; [done | set_solver].
        -- right. split; [|done]. split; [done | set_solver].
      * destruct (IH (S i) l Hi) as [? | [? ?]]; [by left | by right].
Qed.

(** ** Rewritten lines *)

Lemma strip_no_LF (line : text) :
  (terminated line ∨ open_line line) → LF ∉ strip line.
Proof.
  destruct (strip_split line) as (l & r & E & _ & _ & _ & Ht).
  intros [(body & Hb & Hn) | [_ Hn]]; [|rewrite E in Hn; set_solver].
  intros Hin. destruct (strip line) as [|z t' _] using rev_ind.
  { by apply elem_of_nil in Hin. }
  rewrite rev_app_distr in Ht. simpl in Ht.
  rewrite Hb in E. destruct r as [|x r' _] using rev_ind.
  - rewrite app_nil_r, app_assoc in E. apply app_inj_tail in E as [_ <-].
    by vm_compute in Ht.
  - rewrite !app_assoc in E. apply app_inj_tail in E as [E _].
    apply Hn. rewrite E. set_solver.
Qed.

Lemma occurs_infix (r : regex) (a s b : text) : occurs r s → occurs r (a ++ s ++ b).
Proof.
  intros (pre & w & post & cs & -> & Hm).
  exists (a ++ pre), w, (post ++ b), cs. split; [|done].
  by rewrite <- !app_assoc.
Qed.

Lemma accept_Some (lines : list text) (i : nat) (line : text) (m : match_obj)
    (cls : text) :
  accept lines i line = Some (m, cls) →
  is_match (search server_impl_processed_pattern (strip line)) = false
  ∧ search server_impl_annotation_pattern (strip line) = Some m
  ∧ find_class lines i = Some cls.
Proof.
  unfold accept.
  destruct (is_match (search server_impl_processed_pattern (strip line))); [done|].
  destruct (search server_impl_annotation_pattern (strip line)); [|done].
  destruct (find_class lines i); [|done]. by intros [= -> ->].
Qed.

(** What the annotation pattern captured on a line: white space and a
    payload free of closing parentheses, both parts of the line. *)
Lemma captured (line : text) (m : match_obj) :
  search server_impl_annotation_pattern (strip line) = Some m →
  all_space (group 1 (m_groups m))
  ∧ Forall (λ x, not_rparen x = true) (group 2 (m_groups m))
  ∧ (∃ a b, line = a ++ group 1 (m_groups m) ++ b)
  ∧ (∃ a b, line = a ++ group 2 (m_groups m) ++ b).
Proof.
  intros (pre & E & _ & (a & b & c & Ew & H1 & H2)%annotation_shape & _)%search_Some.
  destruct (strip_split line) as (l & r & El & _).
  split_and!; [done | done | |].
  - exists (l ++ pre). eexists. rewrite El, E, Ew at 1.
    rewrite <- !app_assoc. reflexivity.
  - exists (l ++ pre ++ group 1 (m_groups m) ++ T "/*" ++ a ++ T "@ServerImpl" ++ b ++ T "(").
    eexists. rewrite El, E, Ew at 1. rewrite <- !app_assoc. reflexivity.
Qed.

Lemma captured_no_LF (line : text) (m : match_obj) :
  (terminated line ∨ open_line line) →
  search server_impl_annotation_pattern (strip line) = Some m →
  (LF ∉ group 1 (m_groups m)) ∧ (LF ∉ group 2 (m_groups m)).
Proof.
  intros Hl%strip_no_LF
    (pre & E & _ & (a & b & c & Ew & _)%annotation_shape & _)%search_Some.
  rewrite E, Ew in Hl. set_solver.
Qed.

Lemma processed_line_terminated (line : text) (m : match_obj) :
  (terminated line ∨ open_line line) →
  search server_impl_annotation_pattern (strip line) = Some m →
  terminated (processed_line m).
Proof.
  intros Hl Hs. destruct (captured_no_LF line m Hl Hs) as [H1 H2].
  exists (group 1 (m_groups m) ++ T "/*--@ServerImpl(" ++ group 2 (m_groups m)
            ++ T ")--*/").
  split; [unfold processed_line; by rewrite <- !app_assoc|].
  rewrite !elem_of_app. intros [? | [Hin | [? | Hin]]]; try done;
    revert Hin; compute_done.
Qed.

(** The processed marker line, stripped. *)
Lemma strip_processed_line (line : text) (m : match_obj) :
  search server_impl_annotation_pattern (strip line) = Some m →
  strip (processed_line m)
  = T "/*--@ServerImpl(" ++ group 2 (m_groups m) ++ T ")--*/".
Proof.
  intros (H1 & _)%captured. unfold processed_line.
  replace (group 1 (m_groups m) ++ T "/*--@ServerImpl(" ++ group 2 (m_groups m)
             ++ T ")--*/" ++ [LF])
    with (group 1 (m_groups m) ++ (T "/*--@ServerImpl(" ++ group 2 (m_groups m)
             ++ T ")--*/") ++ [LF]) by (by rewrite <- !app_assoc).
  apply strip_framed; [done | by repeat constructor | done |].
  by rewrite !rev_app_distr.
Qed.

(** A processed marker line is skipped as already processed. *)
Lemma processed_line_skipped (line : text) (m : match_obj) :
  search server_impl_annotation_pattern (strip line) = Some m →
  is_match (search server_impl_processed_pattern (strip (processed_line m))) = true.
Proof.
  intros Hs. rewrite (strip_processed_line line m Hs).
  apply search_is_match. destruct (captured line m Hs) as (_ & H2 & _).
  exists [], (T "/*--@ServerImpl(" ++ group 2 (m_groups m) ++ T ")--*/"), [], [].
  split; [by rewrite app_nil_r | by apply processed_shape].
Qed.

(** Rewriting a marker adds no class declaration to its line. *)
Lemma processed_line_class (line : text) (m : match_obj) :
  search server_impl_annotation_pattern (strip line) = Some m →
  qualifying_class (processed_line m) = true → qualifying_class line = true.
Proof.
  unfold qualifying_class. rewrite !search_is_match. intros Hs Hq.
  destruct (captured line m Hs) as (H1 & _ & _ & (a & b & ->)).
  apply occurs_infix. by apply (class_in_processed_line (group 1 (m_groups m))).
Qed.

(** ** The second pass *)

Lemma enumerate_from_length {A : Type} (l : list A) (k : nat) :
  length (enumerate_from k l) = length l.
Proof. revert k. induction l as [|x l IH]; intros k; simpl; [done | by rewrite IH]. Qed.

Lemma rewritten_length (lines : list text) :
  length (rewrite_line lines <$> enumerate lines) = length lines.
Proof. unfold enumerate. by rewrite length_fmap, enumerate_from_length. Qed.

Lemma rewritten_lookup (lines : list text) (i : nat) :
  (rewrite_line lines <$> enumerate lines) !! i
  = (λ l, rewrite_line lines (i, l)) <$> lines !! i.
Proof.
  rewrite list_lookup_fmap. unfold enumerate. rewrite enumerate_from_lookup.
  by destruct (lines !! i).
Qed.

(** The rewritten lines are the lines of the text written. *)
Lemma rewritten_wf (lines : list text) :
  wf_lines lines → wf_lines (rewrite_line lines <$> enumerate lines).
Proof.
  intros Hwf i l' Hi. rewrite rewritten_lookup in Hi. rewrite rewritten_length.
  destruct (lines !! i) as [l|] eqn:El; [|done]. injection Hi as <-.
  pose proof (Hwf i l El) as Hl. unfold rewrite_line. simpl.
  destruct (accept lines i l) as [[m cls]|] eqn:Ea; [|done].
  left. apply accept_Some in Ea as (_ & Hs & _).
  apply (processed_line_terminated l m); [tauto | done].
Qed.

(** A class declaration in the window of the rewritten lines was in the
    window of the lines read. *)
Lemma find_class_rewritten (lines : list text) (i : nat) :
  is_Some (find_class (rewrite_line lines <$> enumerate lines) i) →
  is_Some (find_class lines i).
Proof.
  rewrite !find_class_is_Some. intros (j & lj' & Hj & Hl & Hq).
  rewrite rewritten_lookup in Hl.
  destruct (lines !! j) as [lj|] eqn:El; [|done]. injection Hl as <-.
  exists j, lj. split_and!; [lia | lia | done |].
  unfold rewrite_line in Hq. simpl in Hq.
  destruct (accept lines j lj) as [[m cls]|] eqn:Ea; [|done].
  apply accept_Some in Ea as (_ & Hs & _).
  by apply (processed_line_class lj m).
Qed.

(** No line of the rewritten file is accepted again. *)
Lemma second_pass_rejects (lines : list text) (i : nat) (l' : text) :
  (rewrite_line lines <$> enumerate lines) !! i = Some l' →
  accept (rewrite_line lines <$> enumerate lines) i l' = None.
Proof.
  intros Hi. rewrite rewritten_lookup in Hi.
  destruct (lines !! i) as [l|] eqn:El; [|done]. injection Hi as <-.
  unfold rewrite_line at 2. simpl.
  destruct (accept lines i l) as [[m cls]|] eqn:Ea.
  - apply accept_Some in Ea as (_ & Hs & _).
    unfold accept. by rewrite (processed_line_skipped l m Hs).
  - unfold accept in *.
    destruct (is_match (search server_impl_processed_pattern (strip l))); [done|].
    destruct (search server_impl_annotation_pattern (strip l)); [|done].
    destruct (find_class lines i) as [cls|] eqn:Ef; [done|].
    destruct (find_class (rewrite_line lines <$> enumerate lines) i) eqn:Ef'; [|done].
    assert (is_Some (find_class lines i)) as [? ?]
      by (apply find_class_rewritten; by rewrite Ef'). congruence.
Qed.

Lemma second_pass_no_match (p : text) (lines : list text) :
  omap (match_of p (rewrite_line lines <$> enumerate lines))
       (enumerate (rewrite_line lines <$> enumerate lines)) = [].
Proof.
  apply elem_of_nil_inv. intros info ([i l'] & Hil & Hm)%list_elem_of_omap.
  apply enumerate_elem in Hil. unfold match_of in Hm. simpl in Hm.
  by rewrite (second_pass_rejects lines i l' Hil) in Hm.
Qed.

(** The lines of the file after a pass are the rewritten lines, whether
    the file was written or not. *)
Lemma lines_after (p content : text) :
  match file_after (File content) (check_and_comment_server_impl p (File content)).2 with
  | File content' =>
      readlines content'
      = rewrite_line (readlines content) <$> enumerate (readlines content)
  | _ => False
  end.
Proof.
  simpl. rewrite scan_lines_eq. simpl.
  destruct (nonempty _) eqn:En; simpl.
  - unfold writelines. apply readlines_concat, rewritten_wf, readlines_wf.
  - apply list_eq. intros i. rewrite rewritten_lookup.
    destruct (readlines content !! i) as [l|] eqn:El; [|done]. simpl. f_equal.
    symmetry. apply (rewrite_line_rejected p).
    destruct (match_of p (readlines content) (i, l)) as [info|] eqn:Em; [|done].
    assert (info ∈ omap (match_of p (readlines content)) (enumerate (readlines content)))
      as Hin.
    { apply list_elem_of_omap. exists (i, l). split; [by apply enumerate_elem | done]. }
    destruct (omap _ _); [by apply elem_of_nil in Hin | done].
Qed.

(** C1.  Running [check_and_comment_server_impl] on a file and then again
    on the file the first run left: the second run finds no marker to
    accept, reports no match, [modified = false] and [found = false],
    raises no error and does not write the file; and every marker line
    the first run wrote is skipped by the second run as already
    processed, so it is not an unprocessed marker any more. *)
Theorem second_run_idempotent (p content : text) :
  let run1 := check_and_comment_server_impl p (File content) in
  let run2 := check_and_comment_server_impl p (file_after (File content) run1.2) in
  matches run2.1 = []
  ∧ found run2.1 = false
  ∧ modified run2.1 = false
  ∧ error run2.1 = None
  ∧ run2.2 = None
  ∧ file_after (file_after (File content) run1.2) run2.2
    = file_after (File content) run1.2
  ∧ (∀ i line m cls,
       readlines content !! i = Some line →
       accept (readlines content) i line = Some (m, cls) →
       unprocessed_marker (processed_line m) = false).
Proof.
  intros run1 run2. pose proof (lines_after p content) as Hl.
  fold run1 in Hl. unfold run2.
  destruct (file_after (File content) run1.2) as [| |content'| |] eqn:Ef; try done.
  cbn [check_and_comment_server_impl fst snd found matches modified error].
  rewrite Hl, scan_lines_eq. cbn [st_found st_matches st_modified].
  rewrite second_pass_no_match. split_and!; try done.
  intros i line m cls Hi (_ & Hs & _)%accept_Some.
  unfold unprocessed_marker. by rewrite (processed_line_skipped line m Hs).
Qed.

(** ** What the rewriter writes *)

(** A marker that opens its line has no white space before it in the
    stripped line, so nothing is captured as indentation. *)
Lemma first_group_empty (line : text) (m : match_obj) :
  search server_impl_annotation_pattern (strip line) = Some m →
  m_start m = 0 → group 1 (m_groups m) = [].
Proof.
  intros (pre & E & Hst & (a & b & c & Ew & H1 & _)%annotation_shape & _)%search_Some H0.
  rewrite H0 in Hst. destruct pre; [|done]. simpl in E.
  destruct (strip_split line) as (_ & _ & _ & _ & _ & Hh & _).
  rewrite E, Ew in Hh. destruct (group 1 (m_groups m)) as [|x g]; [done|].
  simpl in Hh. inversion H1; congruence.
Qed.

(** C3 (the code departs from the claim).  The line written for an
    accepted marker is the first group of the match, the processed form
    of the tag, the second group as captured (the payload between the
    parentheses, quotes and all) and a line end.  The match is sought in
    the stripped line, so for a marker that opens its line the first
    group is empty: the indentation of the line is not written back.  The
    sample file has its marker indented by four blanks and gets the
    marker back at the left margin. *)
Theorem processed_line_drops_indentation :
  (check_and_comment_server_impl sample_path (File (sample_file 0))).2
  = Some (T "/*--@ServerImpl(" ++ [DQ] ++ T "svc" ++ [DQ] ++ T ")--*/" ++ [LF]
            ++ sample_class)
  ∧ (∀ p lines i line m cls,
       lines !! i = Some line →
       accept lines i line = Some (m, cls) →
       st_modified_lines (scan_lines p lines) !! i
       = Some (group 1 (m_groups m) ++ T "/*--@ServerImpl("
                 ++ group 2 (m_groups m) ++ T ")--*/" ++ [LF])
       ∧ search server_impl_annotation_pattern (strip line) = Some m
       ∧ (∃ a b c, m_group0 m
                   = group 1 (m_groups m) ++ T "/*" ++ a ++ T "@ServerImpl" ++ b
                       ++ T "(" ++ group 2 (m_groups m) ++ T ")" ++ c ++ T "*/")
       ∧ (m_start m = 0 → group 1 (m_groups m) = [])).
Proof.
  split; [by vm_compute|].
  intros p lines i line m cls Hi Ha.
  rewrite (modified_lines_lookup p lines i line Hi).
  unfold rewrite_line. simpl. rewrite Ha.
  apply accept_Some in Ha as (_ & Hs & _). split_and!; [done | done | | ].
  - apply search_Some in Hs as (pre & _ & _ & (a & b & c & Ew & _)%annotation_shape & _).
    by exists a, b, c.
  - by apply (first_group_empty line).
Qed.

(** ** Replacement templates *)

Lemma parse_template_literal (groups : nat) (code tail : text) :
  no_backslash code →
  parse_template groups (code ++ tail)
  = (λ l, (TLit <$> code) ++ l) <$> parse_template groups tail.
Proof.
  unfold no_backslash. induction code as [|c code IH]; intros Hb.
  - simpl. by destruct (parse_template groups tail).
  - assert (chr_eqb c BSL = false) as Hc by (apply chr_eqb_neq; set_solver).
    cbn [app parse_template]. rewrite Hc. cbn [negb].
    rewrite IH by set_solver. by destruct (parse_template groups tail).
Qed.

(** The template of a registration code without backslash: the first
    group, a line end, the code as it is and the second group. *)
Lemma parse_replacement (code : text) :
  no_backslash code →
  parse_template (ngroups init_pattern) (replacement code)
  = Some (TGroup 1 :: TLit LF :: (TLit <$> code) ++ [TGroup 2]).
Proof.
  intros Hb. unfold replacement.
  change (parse_template (ngroups init_pattern)
            ([BSL; "1"%char; BSL; "n"%char] ++ code ++ [BSL; "2"%char]))
    with (addgroup 2 1 (cons (TLit LF) <$>
            parse_template 2 (code ++ [BSL; "2"%char]))).
  rewrite parse_template_literal by done. done.
Qed.

Lemma no_backslash_valid (code : text) : no_backslash code → valid_template code.
Proof. intros Hb. unfold valid_template. by rewrite parse_replacement. Qed.

Lemma expand_literal (m : match_obj) (code : text) :
  concat (expand_item m <$> (TLit <$> code)) = code.
Proof. induction code as [|c code IH]; [done|]. cbn. f_equal. exact IH. Qed.

Lemma expand_replacement (code : text) (m : match_obj) :
  expand_template (TGroup 1 :: TLit LF :: (TLit <$> code) ++ [TGroup 2]) m
  = patched code m.
Proof.
  unfold expand_template, patched. simpl.
  rewrite fmap_app, concat_app, expand_literal. simpl. by rewrite app_nil_r.
Qed.

(** ** Substitution and insertion without a placeholder *)

Lemma occurs_tail (r : regex) (c : ascii) (s : text) : occurs r s → occurs r (c :: s).
Proof. intros H. by apply (occurs_infix r [c] s []) in H; rewrite app_nil_r in H. Qed.

Lemma match_at_occurs (r : regex) (pos : nat) (s : text) (m : match_obj) :
  match_at r pos s = Some m → occurs r s.
Proof.
  intros (_ & Hs & Hm)%match_at_Some.
  by exists [], (m_group0 m), (m_rest m), (m_groups m).
Qed.

(** Where the pattern does not occur, [sub] changes nothing. *)
Lemma sub_walk_absent (r : regex) (tmpl : list titem) (pos : nat) (s : text) :
  ¬ occurs r s → sub_walk r tmpl pos 0 s = s.
Proof.
  revert pos. induction s as [|c s IH]; intros pos Hno; simpl.
  - destruct (match_at r pos []) eqn:E; [|done].
    destruct Hno. by apply (match_at_occurs r pos [] m).
  - destruct (match_at r pos (c :: s)) eqn:E.
    + destruct Hno. by apply (match_at_occurs r pos (c :: s) m).
    + rewrite IH; [done|]. intros H. by apply Hno, occurs_tail.
Qed.

Lemma search_absent (r : regex) (s : text) : ¬ occurs r s → search r s = None.
Proof. intros H. by apply search_from_None. Qed.

Lemma insert_includes_absent (content include_statements : text) :
  ¬ occurs init_pattern content → insert_includes content include_statements = content.
Proof.
  intros H. unfold insert_includes. rewrite (search_absent _ _ H).
  by destruct include_statements.
Qed.

(** The operation on a file without placeholder, case by case. *)
Lemma update_absent (content code include_statements : text) :
  ¬ occurs init_pattern content →
  update_server_factory_init (File content) code include_statements
  = match parse_template (ngroups init_pattern) (replacement code) with
    | None => (UpdateResult false (Some UpdateException), None)
    | Some _ =>
        if text_eqb include_statements []
        then (UpdateResult false (Some PlaceholderNotFound), None)
        else (UpdateResult true None, Some content)
    end.
Proof.
  intros H. unfold update_server_factory_init, re_sub.
  rewrite insert_includes_absent by done.
  destruct (parse_template _ _) as [tmpl|]; [|done]. simpl.
  rewrite sub_walk_absent by done.
  assert (text_eqb content content = true) as -> by (by apply text_eqb_eq).
  done.
Qed.

Lemma plain_content_absent : ¬ occurs init_pattern plain_content.
Proof. apply (search_from_None init_pattern 0). by vm_compute. Qed.

(** The operation is not a no-op with an error on every file without
    placeholder: with an include list that is not empty it reports
    success. *)
Lemma absent_placeholder_success :
  ¬ reports_error_when_absent plain_content (T "    return true;") sample_includes.
Proof.
  intros H. destruct (H plain_content_absent) as [Hs _]. by vm_compute in Hs.
Qed.

(** X1.  On a target file without placeholder, and for a registration code
    whose replacement template is well formed, no
    registration body is inserted and the content stays as it is; the
    operation reports the error PlaceholderNotFound and does not write
    when the include list is empty, and it reports success and writes the
    unchanged content back when the include list is not empty. *)
Theorem absent_placeholder_by_includes (content code include_statements : text) :
  ¬ occurs init_pattern content →
  valid_template code →
  (include_statements = [] →
     update_server_factory_init (File content) code include_statements
     = (UpdateResult false (Some PlaceholderNotFound), None))
  ∧ (include_statements ≠ [] →
     update_server_factory_init (File content) code include_statements
     = (UpdateResult true None, Some content)).
Proof.
  intros Habs [tmpl Hv]. rewrite (update_absent _ _ _ Habs), Hv. split.
  - by intros ->.
  - intros Hne. by rewrite (proj2 (text_eqb_neq _ _) Hne).
Qed.

Lemma absent_placeholder_by_includes_witness :
  update_server_factory_init (File plain_content) (T "    return true;") sample_includes
  = (UpdateResult true None, Some plain_content).
Proof.
  apply (absent_placeholder_by_includes plain_content (T "    return true;")
           sample_includes).
  - exact plain_content_absent.
  - eexists. by vm_compute.
  - done.
Defined.

(** The target file has no placeholder and the include list is empty,
    yet the error reported is
    not PlaceholderNotFound: the registration code is spliced as it is
    into a replacement template, the template does not parse, and the
    operation ends in its handler for exceptions. *)
Theorem bad_template_hides_placeholder_error :
  ¬ occurs init_pattern plain_content
  ∧ update_server_factory_init (File plain_content) (T "\q") []
    = (UpdateResult false (Some UpdateException), None).
Proof. split; [exact plain_content_absent | by vm_compute]. Qed.

(** X2.  Without placeholder and without include list the file is never
    written and the operation fails: with PlaceholderNotFound when the
    replacement template is well formed, in its exception handler when it
    is not. *)
Theorem absent_placeholder_no_includes (content code : text) :
  ¬ occurs init_pattern content →
  let r := update_server_factory_init (File content) code [] in
  r.2 = None
  ∧ success r.1 = false
  ∧ (valid_template code → update_err r.1 = Some PlaceholderNotFound)
  ∧ (no_backslash code → update_err r.1 = Some PlaceholderNotFound)
  ∧ (¬ valid_template code → update_err r.1 = Some UpdateException).
Proof.
  intros Habs r. unfold r. rewrite (update_absent _ _ _ Habs).
  assert (valid_template code → update_err
            (match parse_template (ngroups init_pattern) (replacement code) with
             | Some _ => if text_eqb [] []
                         then (UpdateResult false (Some PlaceholderNotFound), None)
                         else (UpdateResult true None, Some content)
             | None => (UpdateResult false (Some UpdateException), None)
             end).1 = Some PlaceholderNotFound) as Hv.
  { intros [tmpl Hv]. by rewrite Hv. }
  split_and!; [| | done | by intros ?%no_backslash_valid%Hv |].
  - by destruct (parse_template _ _).
  - by destruct (parse_template _ _).
  - unfold valid_template. destruct (parse_template _ _); [|done].
    intros []. by eexists.
Qed.

Lemma absent_placeholder_no_includes_witness :
  update_err (update_server_factory_init (File plain_content)
                (T "    return false;") []).1
  = Some PlaceholderNotFound.
Proof.
  destruct (absent_placeholder_no_includes plain_content (T "    return false;")
              plain_content_absent) as (_ & _ & _ & Hb & _).
  apply Hb. unfold no_backslash. compute_done.
Defined.

(** ** Global substitution *)

Lemma sub_walk_skip (r : regex) (tmpl : list titem) (pos : nat) (w rest : text) :
  sub_walk r tmpl pos (length w) (w ++ rest)
  = sub_walk r tmpl (pos + length w) 0 rest.
Proof.
  revert pos. induction w as [|c w IH]; intros pos; simpl.
  - by rewrite Nat.add_0_r.
  - rewrite IH. f_equal. lia.
Qed.

Lemma replaced_all_cons (r : regex) (f : match_obj -> text) (pos : nat) (c : ascii)
    (s out : text) :
  match_at r pos (c :: s) = None →
  replaced_all r f s out → replaced_all r f (c :: s) (c :: out).
Proof.
  intros Hn Hr. destruct Hr as [s Hno | pre m pos' out Hleft Hm Hne Hr].
  - apply ra_done. intros (pre & w & post & cs & E & Hw).
    destruct pre as [|c' pre]; simpl in E.
    + by apply (proj1 (match_at_None r pos (c :: s)) Hn w post cs).
    + injection E as _ ->. apply Hno. by exists pre, w, post, cs.
  - apply (ra_step r f (c :: pre) m pos' out); try done.
    intros [|k] Hk; simpl in *.
    + by apply (match_at_pos r pos).
    + eapply match_at_pos. apply (Hleft k). lia.
Qed.

(** [sub] replaces every match, for a pattern that matches no empty
    text. *)
Lemma sub_walk_replaced (r : regex) (tmpl : list titem) :
  (∀ cs, ¬ re_matches r [] [] cs) →
  ∀ s pos, replaced_all r (expand_template tmpl) s (sub_walk r tmpl pos 0 s).
Proof.
  intros Hne s. remember (length s) as n eqn:Hn.
  revert s Hn. induction n as [n IH] using lt_wf_ind. intros s Hn pos.
  destruct s as [|c s]; simpl.
  - destruct (match_at r pos []) as [m|] eqn:E.
    + apply match_at_Some in E as (_ & Hs & Hm).
      symmetry in Hs. apply app_eq_nil in Hs as [Hg _]. rewrite Hg in Hm.
      by destruct (Hne _ Hm).
    + apply ra_done. intros (pre & w & post & cs & E' & Hw).
      symmetry in E'. apply app_eq_nil in E' as [_ [-> _]%app_eq_nil].
      by destruct (Hne _ Hw).
  - destruct (match_at r pos (c :: s)) as [m|] eqn:E.
    + pose proof E as (_ & Hs & Hm)%match_at_Some.
      destruct (m_group0 m) as [|c' w] eqn:Eg; [by destruct (Hne _ Hm)|].
      simpl in Hs. injection Hs as <- ->. simpl. rewrite sub_walk_skip.
      pose proof (ra_step r (expand_template tmpl) [] m pos
                    (sub_walk r tmpl (S pos + length w) 0 (m_rest m))) as Hstep.
      rewrite Eg in Hstep. simpl in Hstep. apply Hstep.
      * intros k Hk. lia.
      * done.
      * done.
      * apply (IH (length (m_rest m))); [|done]. subst n. simpl.
        rewrite length_app. lia.
    + apply (replaced_all_cons r _ pos); [done|].
      apply (IH (length s)); [subst n; simpl; lia | done].
Qed.

(** A match of the placeholder pattern starts with the word inline. *)
Lemma init_head (w : text) (cs : caps) :
  re_matches init_pattern [] w cs → ∃ w', w = T "inline" ++ w'.
Proof.
  unfold init_pattern. intros H. inv_re.
  rewrite <- (app_assoc (T "inline")). by eexists.
Qed.

Lemma init_nonempty (cs : caps) : ¬ re_matches init_pattern [] [] cs.
Proof. by intros [w' E]%init_head. Qed.

(** For a registration code without backslash [sub] succeeds and
    replaces every placeholder by its signature, a line end, the code and
    its closing brace. *)
Lemma re_sub_replaced (code content : text) :
  no_backslash code →
  ∃ out, re_sub init_pattern (replacement code) content = Some out
         ∧ replaced_all init_pattern (patched code) content out.
Proof.
  intros Hb. unfold re_sub. rewrite parse_replacement by done. simpl.
  eexists. split; [done|].
  pose proof (sub_walk_replaced init_pattern
                (TGroup 1 :: TLit LF :: (TLit <$> code) ++ [TGroup 2])
                init_nonempty content 0) as H.
  revert H. generalize (sub_walk init_pattern
    (TGroup 1 :: TLit LF :: (TLit <$> code) ++ [TGroup 2]) 0 0 content).
  intros out H. induction H as [s Hno | pre m pos out Hleft Hm Hne Hr IH].
  - by apply ra_done.
  - rewrite expand_replacement. by apply (ra_step _ _ pre m pos).
Qed.

(** ** What the scanner reports *)

Lemma nonempty_false {A : Type} (l : list A) : nonempty l = false ↔ l = [].
Proof. by destruct l. Qed.

(** The matches of a file do not depend on whether it can be written. *)
Lemma matches_read_only (p content : text) :
  matches (check_and_comment_server_impl p (ReadOnly content)).1
  = matches (check_and_comment_server_impl p (File content)).1.
Proof. done. Qed.

(** X3.  The flags of the result of [check_and_comment_server_impl] agree with
    each other, whatever the path holds: [found] and [modified] are equal
    and tell whether [matches] holds an entry, so a result with [found]
    set and [modified] unset, the case [main] takes for an already
    processed file, does not occur.  The file is written exactly when
    [modified] is set and no error is reported.  No error is reported
    exactly for a file that can be read and written, and for a file that
    can be read only when it holds no accepted marker.  A result with an
    error reports no match, but for one case: a file that can be read and
    not written and holds an accepted marker comes back with the error of
    the handler together with the matches and both flags set, and is not
    written. *)
Theorem result_flags_agree (p : text) (f : fs_entry) :
  let r := check_and_comment_server_impl p f in
  found r.1 = nonempty (matches r.1)
  ∧ modified r.1 = found r.1
  ∧ (is_Some r.2 ↔ modified r.1 = true ∧ error r.1 = None)
  ∧ (error r.1 = None
     ↔ (∃ content, f = File content)
       ∨ (∃ content, f = ReadOnly content ∧ matches r.1 = []))
  ∧ (error r.1 ≠ None → r.2 = None)
  ∧ (error r.1 ≠ None → matches r.1 ≠ [] →
     ∃ content,
       f = ReadOnly content
       ∧ r = (ScanResult true
                (matches (check_and_comment_server_impl p (File content)).1)
                true (Some ProcessingError), None)).
Proof.
  destruct f as [| |content|content|];
    cbn [check_and_comment_server_impl]; cbn [fst snd].
  - simpl. split_and!; try done.
    + split; [by intros [? ?] | by intros [_ ?]].
    + split; [done | by intros [[? ?] | (? & ? & _)]].
  - simpl. split_and!; try done.
    + split; [by intros [? ?] | by intros [_ ?]].
    + split; [done | by intros [[? ?] | (? & ? & _)]].
  - rewrite scan_lines_eq. simpl.
    destruct (nonempty _); split_and!; try done.
    + split; [intros _; left; by eexists | done].
    + split; [by intros [? ?] | by intros [? _]].
    + split; [intros _; left; by eexists | done].
  - rewrite scan_lines_eq. simpl.
    destruct (nonempty _) eqn:En; split_and!; try done.
    + split; [by intros [? ?] | by intros [_ ?]].
    + split; [done|]. intros [[? ?] | (c & _ & Hnil)]; [done|].
      by rewrite Hnil in En.
    + intros _ _. exists content. by rewrite scan_lines_eq, En.
    + split; [by intros [? ?] | by intros [? _]].
    + split; [|done]. intros _. right. exists content. split; [done|].
      by apply nonempty_false.
  - simpl. split_and!; try done.
    + split; [by intros [? ?] | by intros [_ ?]].
    + split; [done | by intros [[? ?] | (? & ? & _)]].
Qed.

(** The entries the loop collects from the lines [ls] that start at index
    [k]: line numbers above [k], in ascending order. *)
Lemma matches_from_sorted (p : text) (lines ls : list text) (k : nat) :
  let ms := omap (match_of p lines) (enumerate_from k ls) in
  (∀ x, x ∈ ms → k < line_number x)
  ∧ (∀ a b x y, a < b → ms !! a = Some x → ms !! b = Some y →
       line_number x < line_number y).
Proof.
  revert k. induction ls as [|l ls IH]; intros k; cbn [enumerate_from omap list_omap].
  - split; [by intros x Hx%elem_of_nil | by intros a b x y _ Ha].
  - destruct (IH (S k)) as [Hlow Hsort].
    destruct (match_of p lines (k, l)) as [info|] eqn:E.
    + assert (line_number info = k + 1) as Hn.
      { unfold match_of in E. simpl in E.
        destruct (accept lines k l) as [[m cls]|]; by simplify_eq/=. }
      split.
      * intros x [->|Hx%Hlow]%elem_of_cons; lia.
      * intros [|a] [|b] x y Hab Ha Hb; simpl in *; try lia.
        -- injection Ha as <-.
           assert (S k < line_number y); [|lia].
           apply Hlow. by apply list_elem_of_lookup; exists b.
        -- apply (Hsort a b); [lia | done | done].
    + split; [|done]. intros x Hx%Hlow. lia.
Qed.

(** An entry of [matches] comes from an accepted marker line. *)
Lemma match_elem (p : text) (lines : list text) (info : match_info) :
  info ∈ omap (match_of p lines) (enumerate lines)
  ↔ ∃ i line m cls,
      lines !! i = Some line ∧ accept lines i line = Some (m, cls)
      ∧ info = MatchInfo (i + 1) cls
                 (extract_bracket_content (group 2 (m_groups m))) p.
Proof.
  rewrite list_elem_of_omap. split.
  - intros ([i line] & Hil%enumerate_elem & Hm). unfold match_of in Hm. simpl in Hm.
    destruct (accept lines i line) as [[m cls]|] eqn:E; [|done].
    injection Hm as <-. by exists i, line, m, cls.
  - intros (i & line & m & cls & Hi & Ha & ->). exists (i, line).
    split; [by apply enumerate_elem|]. unfold match_of. simpl. by rewrite Ha.
Qed.

(** X4.  The matches come in the order of the lines, each marker line once;
    the line numbers count from one and never name the last line of the
    file, and every entry carries the path the scan was called with. *)
Theorem matches_in_line_order (p content : text) :
  let ms := matches (check_and_comment_server_impl p (File content)).1 in
  (∀ a b x y, a < b → ms !! a = Some x → ms !! b = Some y →
     line_number x < line_number y)
  ∧ Forall (λ info, 1 ≤ line_number info < length (readlines content)
                    ∧ file_path info = p) ms
  ∧ NoDup (line_number <$> ms).
Proof.
  intros ms. unfold ms. rewrite matches_of_file.
  destruct (matches_from_sorted p (readlines content) (readlines content) 0)
    as [_ Hsort]. fold (enumerate (readlines content)) in Hsort.
  split_and!; [done | |].
  - apply Forall_forall. intros info (i & line & m & cls & Hi & Ha & ->)%match_elem.
    simpl. split; [|done].
    assert (is_Some (find_class (readlines content) i)) as Hf.
    { apply accept_Some in Ha as (_ & _ & ->). by eexists. }
    apply find_class_is_Some in Hf as (j & lj & Hj & Hlj%lookup_lt_Some & _). lia.
  - apply NoDup_alt. intros a b n Ha Hb.
    rewrite list_lookup_fmap in Ha, Hb.
    destruct (omap _ _ !! a) as [x|] eqn:Ea; [|done].
    destruct (omap _ _ !! b) as [y|] eqn:Eb; [|done].
    simpl in Ha, Hb. injection Ha as Ha. injection Hb as Hb.
    destruct (Nat.lt_total a b) as [Hlt | [-> | Hlt]]; [|done|].
    + pose proof (Hsort a b x y Hlt Ea Eb). lia.
    + pose proof (Hsort b a y x Hlt Eb Ea). lia.
Qed.

(** The file is written when a match is reported. *)
Lemma result_flags_written (p content : text) :
  matches (check_and_comment_server_impl p (File content)).1 ≠ [] →
  is_Some (check_and_comment_server_impl p (File content)).2.
Proof.
  simpl. rewrite scan_lines_eq. simpl.
  destruct (omap _ _); [done | by eauto].
Qed.

(** A match of the annotation pattern, with the white space it allows
    around the tag. *)
Lemma annotation_parts (w : text) (cs : caps) :
  re_matches server_impl_annotation_pattern [] w cs →
  ∃ a b c,
    w = group 1 cs ++ T "/*" ++ a ++ T "@ServerImpl" ++ b ++ T "("
          ++ group 2 cs ++ T ")" ++ c ++ T "*/"
    ∧ all_space (group 1 cs) ∧ all_space a ∧ all_space b ∧ all_space c
    ∧ Forall (λ x, not_rparen x = true) (group 2 cs).
Proof.
  unfold server_impl_annotation_pattern. intros H. inv_re. simpl.
  by eexists _, _, _.
Qed.

(** X5.  Rewriting touches the accepted marker lines only: the file after the
    pass has as many lines as before, and every line for which no match
    is reported is still there, character for character, at its place. *)
Theorem rewrite_keeps_other_lines (p content : text) :
  let r := check_and_comment_server_impl p (File content) in
  match file_after (File content) r.2 with
  | File content' =>
      length (readlines content') = length (readlines content)
      ∧ (∀ i line, readlines content !! i = Some line →
           (∀ info, info ∈ matches r.1 → line_number info ≠ i + 1) →
           readlines content' !! i = Some line)
      ∧ (matches r.1 = [] → content' = content)
  | _ => False
  end.
Proof.
  intros r. pose proof (lines_after p content) as Hl. fold r in Hl.
  destruct (file_after (File content) r.2) as [| |content'| |] eqn:Ef; try done.
  split_and!.
  - by rewrite Hl, rewritten_length.
  - intros i line Hi Hno. rewrite Hl, rewritten_lookup, Hi. simpl. f_equal.
    unfold rewrite_line. simpl.
    destruct (accept (readlines content) i line) as [[m cls]|] eqn:Ea; [|done].
    exfalso.
    assert (is_Some (accept (readlines content) i line)) as Hacc by (by eexists).
    apply (reported_iff_accepted p _ i line Hi) in Hacc as (info & Hin & Hn).
    apply (Hno info); [|done]. unfold r. by rewrite matches_of_file.
  - intros Hnil. unfold r in Ef, Hnil. simpl in Ef, Hnil.
    rewrite scan_lines_eq in Ef, Hnil. simpl in Ef, Hnil.
    rewrite Hnil in Ef. simpl in Ef. by injection Ef as <-.
Qed.

(** X6.  What is registered is what is marked: a match reported with line
    number [n] stands for line [n] of the file read, whose stripped text
    holds an unprocessed marker with a payload [raw] free of closing
    parentheses; line [n] of the file written is the processed marker
    with the same [raw] between the parentheses, and the payload reported
    is [raw] with its white space and its pair of quotes taken off. *)
Theorem reported_marker_is_rewritten (p content : text) (info : match_info) :
  let r := check_and_comment_server_impl p (File content) in
  info ∈ matches r.1 →
  ∃ line indent raw a b c pre post content',
    r.2 = Some content'
    ∧ 1 ≤ line_number info
    ∧ readlines content !! (line_number info - 1) = Some line
    ∧ strip line = pre ++ indent ++ T "/*" ++ a ++ T "@ServerImpl" ++ b
                     ++ T "(" ++ raw ++ T ")" ++ c ++ T "*/" ++ post
    ∧ all_space indent ∧ all_space a ∧ all_space b ∧ all_space c
    ∧ Forall (λ x, not_rparen x = true) raw
    ∧ readlines content' !! (line_number info - 1)
      = Some (indent ++ T "/*--@ServerImpl(" ++ raw ++ T ")--*/" ++ [LF])
    ∧ server_impl_content info = extract_bracket_content raw.
Proof.
  intros r Hin. pose proof (lines_after p content) as Hl. fold r in Hl.
  assert (is_Some r.2) as [content' Hw].
  { apply (result_flags_written p content). unfold r in Hin. intros E. rewrite E in Hin.
    by apply elem_of_nil in Hin. }
  rewrite Hw in Hl. simpl in Hl.
  unfold r in Hin. rewrite matches_of_file in Hin.
  apply match_elem in Hin as (i & line & m & cls & Hi & Ha & ->). simpl.
  replace (i + 1 - 1) with i by lia.
  pose proof Ha as (_ & Hs & _)%accept_Some.
  pose proof Hs as (pre & E & _ & Hm & _)%search_Some.
  apply annotation_parts in Hm as (a & b & c & Ew & H1 & Ha' & Hb & Hc & H2).
  exists line, (group 1 (m_groups m)), (group 2 (m_groups m)), a, b, c, pre,
    (m_rest m), content'.
  split_and!; try done; [lia | |].
  - rewrite E, Ew. by rewrite <- !app_assoc.
  - rewrite Hl, rewritten_lookup, Hi. simpl. unfold rewrite_line. simpl.
    by rewrite Ha.
Qed.

Lemma reported_marker_is_rewritten_witness :
  ∃ line indent raw a b c pre post content',
    (check_and_comment_server_impl sample_path (File (sample_file 0))).2 = Some content'
    ∧ 1 ≤ 1
    ∧ readlines (sample_file 0) !! (1 - 1) = Some line
    ∧ strip line = pre ++ indent ++ T "/*" ++ a ++ T "@ServerImpl" ++ b
                     ++ T "(" ++ raw ++ T ")" ++ c ++ T "*/" ++ post
    ∧ all_space indent ∧ all_space a ∧ all_space b ∧ all_space c
    ∧ Forall (λ x, not_rparen x = true) raw
    ∧ readlines content' !! (1 - 1)
      = Some (indent ++ T "/*--@ServerImpl(" ++ raw ++ T ")--*/" ++ [LF])
    ∧ T "svc" = extract_bracket_content raw.
Proof.
  apply (reported_marker_is_rewritten sample_path (sample_file 0)
           (MatchInfo 1 (T "Foo") (T "svc") sample_path)).
  vm_compute. left.
Defined.

(** ** The class a marker is registered for *)

(** The inner loop over the line indices [a], [a+1], ...: the first line
    that qualifies gives the name. *)
Lemma lookahead_seq (lines : list text) (a n : nat) (cls : text) :
  lookahead lines (seq a n) = Some cls →
  ∃ j m, a ≤ j < a + n
         ∧ search class_pattern (lines !!! j) = Some m
         ∧ cls = group 1 (m_groups m)
         ∧ (∀ j', a ≤ j' < j → qualifying_class (lines !!! j') = false).
Proof.
  revert a. induction n as [|n IH]; intros a; simpl; [done|].
  destruct (search class_pattern (lines !!! a)) as [m|] eqn:E.
  - intros [= <-]. exists a, m. split_and!; [lia | lia | done | done | lia].
  - intros (j & m & Hj & Hs & Hc & Hno)%IH. exists j, m.
    split_and!; [lia | lia | done | done |].
    intros j' Hj'. destruct (decide (j' = a)) as [->|Hne].
    + unfold qualifying_class. by rewrite E.
    + apply Hno. lia.
Qed.

Lemma find_class_Some (lines : list text) (i : nat) (cls : text) :
  find_class lines i = Some cls →
  ∃ j lj m, i + 1 ≤ j ≤ i + 5
            ∧ lines !! j = Some lj
            ∧ search class_pattern lj = Some m
            ∧ cls = group 1 (m_groups m)
            ∧ (∀ j' lj', i + 1 ≤ j' < j → lines !! j' = Some lj' →
                 qualifying_class lj' = false).
Proof.
  unfold find_class, py_range. intros (j & m & Hj & Hs & Hc & Hno)%lookahead_seq.
  assert (j < length lines) as [lj Hlj]%lookup_lt_is_Some by lia.
  rewrite (list_lookup_total_correct _ _ _ Hlj) in Hs.
  exists j, lj, m. split_and!; [lia | lia | done | done | done |].
  intros j' lj' Hj' Hl'. rewrite <- (list_lookup_total_correct _ _ _ Hl').
  apply Hno. lia.
Qed.

(** The name the class pattern captures: a run of word characters, not
    empty, after the word class and white space. *)
Lemma class_name_shape (w : text) (cs : caps) :
  re_matches class_pattern [] w cs →
  group 1 cs ≠ []
  ∧ Forall (λ c, isword c = true) (group 1 cs)
  ∧ ∃ a b, w = T "class" ++ a ++ group 1 cs ++ b ∧ all_space a ∧ a ≠ [].
Proof.
  unfold class_pattern. intros H. inv_re; simpl.
  all: split_and!; [done | by constructor |].
  all: eexists (_ :: _), _; split; [simpl; reflexivity|].
  all: split; [unfold all_space; by constructor | done].
Qed.

(** X7.  The class a match names is the one declared nearest below the marker:
    [class_name] is the name captured on the first of the five lines after
    the marker line that holds a declaration of a class deriving publicly
    from IServer.  The name is a non-empty run of word characters and is
    part of that line; qualifying lines further down in the window are
    not looked at. *)
Theorem class_name_is_nearest (p content : text) (info : match_info) :
  let lines := readlines content in
  info ∈ matches (check_and_comment_server_impl p (File content)).1 →
  class_name info ≠ []
  ∧ Forall (λ c, isword c = true) (class_name info)
  ∧ ∃ j lj m,
      line_number info ≤ j ≤ line_number info + 4
      ∧ lines !! j = Some lj
      ∧ search class_pattern lj = Some m
      ∧ class_name info = group 1 (m_groups m)
      ∧ (∃ a b, lj = a ++ class_name info ++ b)
      ∧ (∀ j' lj', line_number info ≤ j' < j → lines !! j' = Some lj' →
           qualifying_class lj' = false).
Proof.
  intros lines Hin. rewrite matches_of_file in Hin. fold lines in Hin.
  apply match_elem in Hin as (i & line & m0 & cls & Hi & Ha & ->). simpl.
  apply accept_Some in Ha as (_ & _ & Hf).
  apply find_class_Some in Hf as (j & lj & m & Hj & Hlj & Hs & -> & Hno).
  pose proof Hs as (pre & E & _ & Hm & _)%search_Some.
  apply class_name_shape in Hm as (Hne & Hw & a & b & Ew & _).
  split_and!; [done | done |].
  exists j, lj, m. split_and!; [lia | lia | done | done | done | |].
  - exists (pre ++ T "class" ++ a), (b ++ m_rest m).
    rewrite E, Ew. by rewrite <- !app_assoc.
  - intros j' lj' Hj'. apply Hno. lia.
Qed.

Lemma class_name_is_nearest_witness :
  T "Foo" ≠ []
  ∧ Forall (λ c, isword c = true) (T "Foo")
  ∧ ∃ j lj m,
      1 ≤ j ≤ 1 + 4
      ∧ readlines (sample_file 0) !! j = Some lj
      ∧ search class_pattern lj = Some m
      ∧ T "Foo" = group 1 (m_groups m)
      ∧ (∃ a b, lj = a ++ T "Foo" ++ b)
      ∧ (∀ j' lj', 1 ≤ j' < j → readlines (sample_file 0) !! j' = Some lj' →
           qualifying_class lj' = false).
Proof.
  apply (class_name_is_nearest sample_path (sample_file 0)
           (MatchInfo 1 (T "Foo") (T "svc") sample_path)).
  vm_compute. left.
Defined.

(** ** The patcher on a well-formed registration code *)

(** X8.  Every placeholder is replaced, not only the first: for a registration
    code without backslash the text written is the content, include
    statements added, with each match of the placeholder pattern, taken
    from the left and without overlap, replaced by its signature, a line
    end, the registration code and its closing brace.  The operation
    fails with PlaceholderNotFound, writing nothing, only when that text
    equals the content and there is no include list. *)
Theorem every_placeholder_replaced (content code include_statements : text) :
  no_backslash code →
  ∃ out,
    replaced_all init_pattern (patched code)
                 (insert_includes content include_statements) out
    ∧ update_server_factory_init (File content) code include_statements
      = if text_eqb out (insert_includes content include_statements)
           && text_eqb include_statements []
        then (UpdateResult false (Some PlaceholderNotFound), None)
        else (UpdateResult true None, Some out).
Proof.
  intros Hb.
  destruct (re_sub_replaced code (insert_includes content include_statements) Hb)
    as (out & Hsub & Hrep).
  exists out. split; [done|].
  unfold update_server_factory_init. by rewrite Hsub.
Qed.

Lemma every_placeholder_replaced_witness :
  ∃ out,
    replaced_all init_pattern (patched (T "    return true;"))
                 (insert_includes twice_content []) out
    ∧ update_server_factory_init (File twice_content) (T "    return true;") []
      = if text_eqb out (insert_includes twice_content []) && text_eqb [] []
        then (UpdateResult false (Some PlaceholderNotFound), None)
        else (UpdateResult true None, Some out).
Proof.
  apply (every_placeholder_replaced twice_content (T "    return true;") []).
  unfold no_backslash. compute_done.
Defined.

(** ** Backslashes in the registration code *)

Lemma parse_escape (groups : nat) (a b : text) (e x : ascii) :
  no_backslash a → template_escape e = Some x →
  parse_template groups (a ++ [BSL; e] ++ b)
  = (λ l, (TLit <$> a) ++ TLit x :: l) <$> parse_template groups b.
Proof.
  intros Ha He. rewrite parse_template_literal by done.
  assert (chr_eqb e "g" = false ∧ chr_eqb e "0" = false ∧ is_digit e = false)
    as (Hg & H0 & Hd).
  { revert He. unfold template_escape.
    destruct e as [[] [] [] [] [] [] [] []]; by vm_compute. }
  cbn [app parse_template]. rewrite chr_eqb_refl. cbn [negb].
  rewrite Hg, H0, Hd, He. by destruct (parse_template groups b).
Qed.

Lemma parse_bad_escape (groups : nat) (a b : text) (e : ascii) :
  no_backslash a → bad_escape e = true →
  parse_template groups (a ++ [BSL; e] ++ b) = None.
Proof.
  intros Ha He. rewrite parse_template_literal by done.
  assert (chr_eqb e "g" = false ∧ chr_eqb e "0" = false ∧ is_digit e = false
          ∧ template_escape e = None ∧ is_ascii_letter e = true)
    as (Hg & H0 & Hd & Ht & Hl).
  { revert He. unfold bad_escape.
    destruct e as [[] [] [] [] [] [] [] []]; by vm_compute. }
  cbn [app parse_template]. rewrite chr_eqb_refl. cbn [negb].
  by rewrite Hg, H0, Hd, Ht, Hl.
Qed.

(** X9.  The registration code is not inserted as it is: it goes through the
    replacement template of [re], which reads a backslash and the letter
    after it as an escape of [re].  A code that holds backslash n, or any
    other escape of the table but the double backslash, after a part free
    of backslashes and before one, is patched in exactly as the code
    with the character the escape stands for: the two characters written
    in the annotation become a line end in the C++ source. *)
Theorem escape_is_interpreted (init_file : fs_entry) (a b include_statements : text)
    (e x : ascii) :
  no_backslash a → no_backslash b →
  template_escape e = Some x → x ≠ BSL →
  update_server_factory_init init_file (a ++ [BSL; e] ++ b) include_statements
  = update_server_factory_init init_file (a ++ [x] ++ b) include_statements.
Proof.
  intros Ha Hb He Hx.
  assert (parse_template (ngroups init_pattern) (replacement (a ++ [BSL; e] ++ b))
          = parse_template (ngroups init_pattern) (replacement (a ++ [x] ++ b))) as E;
    [|destruct init_file as [| |content|content|]; try done;
      unfold update_server_factory_init, re_sub; by rewrite E].
  assert (no_backslash (a ++ [x] ++ b)) as Hc.
  { unfold no_backslash in *. rewrite !elem_of_app, list_elem_of_singleton.
    intros [? | [? | ?]]; [done | congruence | done]. }
  rewrite (parse_replacement _ Hc). unfold replacement.
  change (parse_template (ngroups init_pattern)
            ([BSL; "1"%char; BSL; "n"%char] ++ (a ++ [BSL; e] ++ b) ++ [BSL; "2"%char]))
    with (addgroup 2 1 (cons (TLit LF) <$>
            parse_template 2 ((a ++ [BSL; e] ++ b) ++ [BSL; "2"%char]))).
  rewrite <- !app_assoc. rewrite (parse_escape 2 a _ e x Ha He).
  rewrite parse_template_literal by done. simpl.
  rewrite !fmap_app. simpl. by rewrite <- !app_assoc.
Qed.

Lemma escape_is_interpreted_witness :
  update_server_factory_init (File sample_placeholder)
    (T "    f(" ++ [DQ] ++ T "a" ++ [BSL; "n"%char] ++ T "b" ++ [DQ] ++ T ");") []
  = update_server_factory_init (File sample_placeholder)
      (T "    f(" ++ [DQ] ++ T "a" ++ [LF] ++ T "b" ++ [DQ] ++ T ");") [].
Proof.
  apply (escape_is_interpreted (File sample_placeholder)
           (T "    f(" ++ [DQ] ++ T "a") (T "b" ++ [DQ] ++ T ");") [] "n" LF).
  - unfold no_backslash. compute_done.
  - unfold no_backslash. compute_done.
  - reflexivity.
  - compute_done.
Defined.

(** X10.  A backslash before an ASCII letter that the table of escapes does not
    know (and that is not g) makes the replacement template ill formed:
    whatever the target file holds, placeholder or not, include list or
    not, the operation ends in its handler for exceptions, reports
    failure and writes nothing. *)
Theorem bad_escape_fails (content a b include_statements : text) (e : ascii) :
  no_backslash a → bad_escape e = true →
  update_server_factory_init (File content) (a ++ [BSL; e] ++ b) include_statements
  = (UpdateResult false (Some UpdateException), None).
Proof.
  intros Ha He. unfold update_server_factory_init, re_sub, replacement.
  change (parse_template (ngroups init_pattern)
            ([BSL; "1"%char; BSL; "n"%char] ++ (a ++ [BSL; e] ++ b) ++ [BSL; "2"%char]))
    with (addgroup 2 1 (cons (TLit LF) <$>
            parse_template 2 ((a ++ [BSL; e] ++ b) ++ [BSL; "2"%char]))).
  rewrite <- !app_assoc. by rewrite (parse_bad_escape 2 a _ e Ha He).
Qed.

Lemma bad_escape_fails_witness :
  update_server_factory_init (File sample_placeholder)
    (T "    f(" ++ [DQ] ++ T "C:" ++ [BSL; "d"%char] ++ T "ev" ++ [DQ] ++ T ");")
    sample_includes
  = (UpdateResult false (Some UpdateException), None).
Proof.
  apply (bad_escape_fails sample_placeholder (T "    f(" ++ [DQ] ++ T "C:")
           (T "ev" ++ [DQ] ++ T ");") sample_includes "d").
  - unfold no_backslash. compute_done.
  - reflexivity.
Defined.

(** ** Where the include statements go *)

Lemma is_prefix_spec (sub s : text) : is_prefix sub s = true ↔ ∃ r, s = sub ++ r.
Proof.
  unfold is_prefix. destruct (lit_run sub s) as [r|] eqn:E.
  - apply lit_run_Some in E. split; [by eauto | done].
  - split; [done|]. intros [r Hr%lit_run_Some]. congruence.
Qed.

Lemma contains_spec (sub s : text) :
  contains sub s = true ↔ ∃ a b, s = a ++ sub ++ b.
Proof.
  induction s as [|c s IH]; simpl.
  - rewrite orb_false_r, is_prefix_spec. split.
    + intros [r Hr]. by exists [], r.
    + intros (a & b & E). destruct a; [|done]. by exists b.
  - rewrite orb_true_iff, is_prefix_spec, IH. split.
    + intros [[r Hr] | (a & b & ->)]; [by exists [], r | by exists (c :: a), b].
    + intros (a & b & E). destruct a as [|c' a]; simpl in E.
      * left. by exists b.
      * injection E as _ ->. right. by exists a, b.
Qed.

Lemma contains_char (c : ascii) (s : text) : c ∉ s → contains [c] s = false.
Proof.
  intros Hc. destruct (contains [c] s) eqn:E; [|done].
  apply contains_spec in E as (a & b & ->). destruct Hc. set_solver.
Qed.

Lemma find_from_unfold (sub s : text) (pos : nat) :
  find_from sub s pos
  = if is_prefix sub s then Z.of_nat pos
    else match s with
         | [] => (-1)%Z
         | _ :: s' => find_from sub s' (S pos)
         end.
Proof. by destruct s. Qed.

Lemma find_from_none (sub s : text) (pos : nat) :
  contains sub s = false → find_from sub s pos = (-1)%Z.
Proof.
  revert pos. induction s as [|c s IH]; intros pos; simpl;
    intros [-> H]%orb_false_iff; [done | by apply IH].
Qed.

Lemma is_prefix_short (sub x y : text) :
  is_prefix sub (x ++ y) = true → length sub ≤ length x → is_prefix sub x = true.
Proof.
  rewrite !is_prefix_spec. intros [r E] Hl. exists (drop (length sub) x).
  apply (f_equal (take (length sub))) in E.
  rewrite take_app_le, take_app_length in E by done.
  rewrite <- (take_drop (length sub) x) at 1. by rewrite E.
Qed.

(** [find]: the first place where [sub] stands. *)
Lemma find_from_first (sub a t : text) (pos : nat) :
  contains sub (a ++ removelast sub) = false →
  find_from sub (a ++ sub ++ t) pos = Z.of_nat (pos + length a).
Proof.
  revert pos. induction a as [|c a IH]; intros pos Hno; rewrite find_from_unfold.
  - assert (is_prefix sub ([] ++ sub ++ t) = true) as ->
      by (apply is_prefix_spec; by exists t).
    simpl. f_equal. lia.
  - simpl in Hno. apply orb_false_iff in Hno as [Hp Hno].
    destruct sub as [|s0 sub]; [done|].
    assert (is_prefix (s0 :: sub) ((c :: a) ++ (s0 :: sub) ++ t) = false) as ->.
    { destruct (is_prefix _ ((c :: a) ++ _)) eqn:E; [|done].
      rewrite (app_removelast_last s0 (l := s0 :: sub)) in E at 2 by done.
      rewrite <- !app_assoc, (app_assoc (c :: a)) in E.
      apply is_prefix_short in E.
      - cbn [app] in E. congruence.
      - rewrite length_app. simpl.
        assert (length (s0 :: sub) = S (length (removelast (s0 :: sub)))) as Hlen.
        { rewrite (app_removelast_last s0 (l := s0 :: sub)) at 1 by done.
          rewrite length_app. simpl. lia. }
        simpl in Hlen. lia. }
    cbn [app]. rewrite IH by done. f_equal. simpl. lia.
Qed.

Lemma find_app (sub x y : text) :
  find sub (x ++ y) (length x) = find_from sub y (length x).
Proof.
  unfold find. rewrite length_app, drop_app_length.
  by assert ((length x <=? length x + length y) = true) as -> by (apply Nat.leb_le; lia).
Qed.

Lemma rfind_from_none (sub s : text) (pos : nat) :
  contains sub s = false → rfind_from sub s pos = (-1)%Z.
Proof.
  revert pos. induction s as [|c s IH]; intros pos; simpl;
    intros [Hp H]%orb_false_iff; rewrite ?Hp; [done|].
  by rewrite IH.
Qed.

(** [rfind]: the last place where [sub] stands. *)
Lemma rfind_from_last (sub a t : text) (pos : nat) :
  contains sub (tail (sub ++ t)) = false →
  rfind_from sub (a ++ sub ++ t) pos = Z.of_nat (pos + length a).
Proof.
  revert pos. induction a as [|c a IH]; intros pos Hno.
  - assert (is_prefix sub (sub ++ t) = true) as Hp
      by (apply is_prefix_spec; by exists t).
    simpl. destruct (sub ++ t) as [|c s] eqn:E; simpl.
    + rewrite Hp. f_equal. lia.
    + simpl in Hno. rewrite rfind_from_none by done. simpl. rewrite Hp. f_equal. lia.
  - cbn [app rfind_from]. rewrite IH by done.
    assert ((0 <=? Z.of_nat (S pos + length a))%Z = true) as -> by (apply Z.leb_le; lia).
    f_equal. simpl. lia.
Qed.

Lemma strip_char (x : ascii) : strip [x] = if isspace x then [] else [x].
Proof.
  unfold strip, rstrip. simpl. destruct (isspace x) eqn:E; simpl; [done|].
  by rewrite E.
Qed.

(** The loop over blank characters stops at the first character that is
    not white space, or at the placeholder. *)
Lemma skip_blank_run (pre ws c rest : text) :
  all_space ws → head_solid c →
  skip_blank (pre ++ ws ++ c ++ rest) (length pre) (length ws + length c)
  = length pre + length ws.
Proof.
  revert pre. induction ws as [|w ws IH]; intros pre Hws Hc.
  - simpl. destruct c as [|x c]; simpl; [lia|].
    rewrite drop_app_length. simpl. rewrite strip_char. simpl in Hc. rewrite Hc.
    assert (text_eqb [x] [] = false) as -> by (by apply text_eqb_neq). lia.
  - inversion Hws as [|? ? Hw Hws']; subst. cbn [length Nat.add skip_blank].
    rewrite drop_app_length. simpl. rewrite strip_char, Hw.
    assert (text_eqb [] [] = true) as -> by (by apply text_eqb_eq).
    replace (pre ++ w :: ws ++ c ++ rest) with ((pre ++ [w]) ++ ws ++ c ++ rest)
      by (by rewrite <- app_assoc).
    replace (S (length pre)) with (length (pre ++ [w]))
      by (rewrite length_app; simpl; lia).
    rewrite IH by done. rewrite length_app. simpl. lia.
Qed.

Lemma rfind_take (sub x y : text) :
  rfind sub (x ++ y) (length x) = rfind_from sub x 0.
Proof. unfold rfind. by rewrite take_app_length. Qed.

Lemma search_split (r : regex) (content : text) (m : match_obj) :
  search r content = Some m →
  content = take (m_start m) content ++ m_group0 m ++ m_rest m
  ∧ length (take (m_start m) content) = m_start m.
Proof.
  intros (pre & E & Hst & _)%search_Some.
  rewrite Hst. rewrite E at 2 3. by rewrite take_app_length.
Qed.

Lemma insert_pos_after_include (a b ws c rest : text) :
  contains (T "#include") (T "include" ++ b ++ [LF] ++ ws ++ c) = false →
  LF ∉ b → all_space ws → head_solid c →
  include_insert_pos ((a ++ T "#include" ++ b ++ [LF] ++ ws ++ c) ++ rest)
                     (length (a ++ T "#include" ++ b ++ [LF] ++ ws ++ c))
  = length (a ++ T "#include" ++ b ++ [LF] ++ ws).
Proof.
  intros Hlast Hb Hws Hc. unfold include_insert_pos. rewrite rfind_take.
  rewrite (rfind_from_last (T "#include") a (b ++ [LF] ++ ws ++ c) 0) by exact Hlast.
  assert ((Z.of_nat (0 + length a) =? -1)%Z = false) as -> by (apply Z.eqb_neq; lia).
  cbn [negb Nat.add]. rewrite Nat2Z.id.
  replace ((a ++ T "#include" ++ b ++ [LF] ++ ws ++ c) ++ rest)
    with (a ++ (T "#include" ++ b) ++ [LF] ++ (ws ++ c ++ rest))
    by (by rewrite <- !app_assoc).
  rewrite find_app, find_from_first.
  2: { cbn [removelast]. rewrite app_nil_r. apply contains_char.
       rewrite elem_of_app. intros [Hin | Hin]; [revert Hin; compute_done | done]. }
  replace (Z.to_nat (Z.of_nat (length a + length (T "#include" ++ b)) + 1))
    with (length (a ++ (T "#include" ++ b) ++ [LF]))
    by (rewrite !length_app; simpl; lia).
  replace (length (a ++ T "#include" ++ b ++ [LF] ++ ws ++ c)
           - length (a ++ (T "#include" ++ b) ++ [LF]))
    with (length ws + length c) by (rewrite !length_app; simpl; lia).
  replace (a ++ (T "#include" ++ b) ++ [LF] ++ ws ++ c ++ rest)
    with ((a ++ (T "#include" ++ b) ++ [LF]) ++ ws ++ c ++ rest)
    by (by rewrite <- !app_assoc).
  rewrite skip_blank_run by done. rewrite !length_app. simpl. lia.
Qed.

Lemma insert_pos_after_comment (a b d ws c rest : text) :
  contains (T "#include")
           (a ++ T "/**" ++ b ++ T "*/" ++ d ++ [LF] ++ ws ++ c) = false →
  contains (T "/**") (T "**" ++ b ++ T "*/" ++ d ++ [LF] ++ ws ++ c) = false →
  contains (T "*/") (T "/**" ++ b ++ T "*") = false →
  LF ∉ d → all_space ws → head_solid c →
  include_insert_pos
    ((a ++ T "/**" ++ b ++ T "*/" ++ d ++ [LF] ++ ws ++ c) ++ rest)
    (length (a ++ T "/**" ++ b ++ T "*/" ++ d ++ [LF] ++ ws ++ c))
  = length (a ++ T "/**" ++ b ++ T "*/" ++ d ++ [LF] ++ ws).
Proof.
  intros Hinc Hlast Hend Hd Hws Hc. unfold include_insert_pos. rewrite !rfind_take.
  rewrite (rfind_from_none (T "#include")) by exact Hinc.
  rewrite (rfind_from_last (T "/**") a (b ++ T "*/" ++ d ++ [LF] ++ ws ++ c) 0)
    by exact Hlast.
  assert ((Z.of_nat (0 + length a) =? -1)%Z = false) as -> by (apply Z.eqb_neq; lia).
  cbn [negb Nat.add Z.eqb]. rewrite Nat2Z.id.
  replace ((a ++ T "/**" ++ b ++ T "*/" ++ d ++ [LF] ++ ws ++ c) ++ rest)
    with (a ++ (T "/**" ++ b) ++ T "*/" ++ (d ++ [LF] ++ ws ++ c ++ rest))
    by (by rewrite <- !app_assoc).
  rewrite find_app, find_from_first.
  2: { cbn [removelast T list_ascii_of_string]. by rewrite <- app_assoc. }
  replace (Z.to_nat (Z.of_nat (length a + length (T "/**" ++ b)) + 2))
    with (length (a ++ (T "/**" ++ b) ++ T "*/"))
    by (rewrite !length_app; simpl; lia).
  replace (a ++ (T "/**" ++ b) ++ T "*/" ++ d ++ [LF] ++ ws ++ c ++ rest)
    with ((a ++ (T "/**" ++ b) ++ T "*/") ++ d ++ [LF] ++ (ws ++ c ++ rest))
    by (by rewrite <- !app_assoc).
  rewrite find_app, find_from_first.
  2: { cbn [removelast]. rewrite app_nil_r. by apply contains_char. }
  replace (Z.to_nat (Z.of_nat (length (a ++ (T "/**" ++ b) ++ T "*/") + length d) + 1))
    with (length ((a ++ (T "/**" ++ b) ++ T "*/") ++ d ++ [LF]))
    by (rewrite !length_app; simpl; lia).
  replace (length (a ++ T "/**" ++ b ++ T "*/" ++ d ++ [LF] ++ ws ++ c)
           - length ((a ++ (T "/**" ++ b) ++ T "*/") ++ d ++ [LF]))
    with (length ws + length c) by (rewrite !length_app; simpl; lia).
  replace (((a ++ (T "/**" ++ b) ++ T "*/") ++ d ++ [LF] ++ ws ++ c ++ rest))
    with (((a ++ (T "/**" ++ b) ++ T "*/") ++ d ++ [LF]) ++ ws ++ c ++ rest)
    by (by rewrite <- !app_assoc).
  rewrite skip_blank_run by done. rewrite !length_app. simpl. lia.
Qed.

(** X11.  With an include line above the placeholder the include statements go
    below the last such line: after the line end that follows the last
    [#include] before the placeholder and after the white space (blank
    lines, indentation) that comes next, followed by two line ends.
    Nothing of the content is lost or moved. *)
Theorem includes_after_last_include (content include_statements : text)
    (m : match_obj) (a b ws c : text) :
  include_statements ≠ [] →
  search init_pattern content = Some m →
  take (m_start m) content = a ++ T "#include" ++ b ++ [LF] ++ ws ++ c →
  contains (T "#include") (T "include" ++ b ++ [LF] ++ ws ++ c) = false →
  LF ∉ b → all_space ws → head_solid c →
  insert_includes content include_statements
  = a ++ T "#include" ++ b ++ [LF] ++ ws ++ include_statements ++ [LF; LF]
      ++ c ++ m_group0 m ++ m_rest m.
Proof.
  intros Hne Hs Hpre Hlast Hb Hws Hc.
  destruct (search_split _ _ _ Hs) as [Ec Hlen]. rewrite Hpre in Ec, Hlen.
  unfold insert_includes. destruct include_statements as [|i incs]; [done|].
  rewrite Hs. unfold insert_at. rewrite <- Hlen. rewrite Ec.
  rewrite insert_pos_after_include by done.
  replace ((a ++ T "#include" ++ b ++ [LF] ++ ws ++ c) ++ m_group0 m ++ m_rest m)
    with ((a ++ T "#include" ++ b ++ [LF] ++ ws) ++ c ++ m_group0 m ++ m_rest m)
    by (by rewrite <- !app_assoc).
  rewrite take_app_length, drop_app_length. by rewrite <- !app_assoc.
Qed.

Lemma includes_after_last_include_witness :
  ∃ m, search init_pattern header_with_include = Some m
       ∧ insert_includes header_with_include sample_includes
         = [] ++ T "#include" ++ T " <Server.h>" ++ [LF] ++ [LF] ++ sample_includes
             ++ [LF; LF] ++ (T "// init" ++ [LF]) ++ m_group0 m ++ m_rest m.
Proof.
  eexists. split; [by vm_compute|].
  apply (includes_after_last_include header_with_include sample_includes _
           [] (T " <Server.h>") [LF] (T "// init" ++ [LF])).
  - done.
  - by vm_compute.
  - by vm_compute.
  - by vm_compute.
  - compute_done.
  - by repeat constructor.
  - by vm_compute.
Defined.

(** X12.  Without an include line but with a documentation comment above the
    placeholder the include statements do not go right behind the end of
    the comment: they go after the line end of the line on which the last
    such comment ends, whatever else that line holds, and after the white
    space that comes next. *)
Theorem includes_after_comment (content include_statements : text)
    (m : match_obj) (a b d ws c : text) :
  include_statements ≠ [] →
  search init_pattern content = Some m →
  take (m_start m) content
  = a ++ T "/**" ++ b ++ T "*/" ++ d ++ [LF] ++ ws ++ c →
  contains (T "#include") (take (m_start m) content) = false →
  contains (T "/**") (T "**" ++ b ++ T "*/" ++ d ++ [LF] ++ ws ++ c) = false →
  contains (T "*/") (T "/**" ++ b ++ T "*") = false →
  LF ∉ d → all_space ws → head_solid c →
  insert_includes content include_statements
  = a ++ T "/**" ++ b ++ T "*/" ++ d ++ [LF] ++ ws ++ include_statements
      ++ [LF; LF] ++ c ++ m_group0 m ++ m_rest m.
Proof.
  intros Hne Hs Hpre Hinc Hlast Hend Hd Hws Hc.
  destruct (search_split _ _ _ Hs) as [Ec Hlen]. rewrite Hpre in Ec, Hlen, Hinc.
  unfold insert_includes. destruct include_statements as [|i incs]; [done|].
  rewrite Hs. unfold insert_at. rewrite <- Hlen. rewrite Ec.
  rewrite insert_pos_after_comment by done.
  replace ((a ++ T "/**" ++ b ++ T "*/" ++ d ++ [LF] ++ ws ++ c)
             ++ m_group0 m ++ m_rest m)
    with ((a ++ T "/**" ++ b ++ T "*/" ++ d ++ [LF] ++ ws)
            ++ c ++ m_group0 m ++ m_rest m)
    by (by rewrite <- !app_assoc).
  rewrite take_app_length, drop_app_length. by rewrite <- !app_assoc.
Qed.

Lemma includes_after_comment_witness :
  ∃ m, search init_pattern header_with_comment = Some m
       ∧ insert_includes header_with_comment sample_includes
         = [] ++ T "/**" ++ T " Registers the servers. " ++ T "*/" ++ T " // generated"
             ++ [LF] ++ [LF] ++ sample_includes ++ [LF; LF] ++ []
             ++ m_group0 m ++ m_rest m.
Proof.
  eexists. split; [by vm_compute|].
  apply (includes_after_comment header_with_comment sample_includes _
           [] (T " Registers the servers. ") (T " // generated") [LF] []).
  - done.
  - by vm_compute.
  - by vm_compute.
  - by vm_compute.
  - by vm_compute.
  - by vm_compute.
  - compute_done.
  - by repeat constructor.
  - done.
Defined.

(** X13.  With neither an include line nor a documentation comment above the
    placeholder the include statements and two line ends go right before
    the placeholder, on its own line when text stands before it. *)
Theorem includes_before_placeholder (content include_statements : text)
    (m : match_obj) :
  include_statements ≠ [] →
  search init_pattern content = Some m →
  contains (T "#include") (take (m_start m) content) = false →
  contains (T "/**") (take (m_start m) content) = false →
  insert_includes content include_statements
  = take (m_start m) content ++ include_statements ++ [LF; LF]
      ++ m_group0 m ++ m_rest m.
Proof.
  intros Hne Hs Hinc Hcom.
  destruct (search_split _ _ _ Hs) as [Ec Hlen].
  unfold insert_includes. destruct include_statements as [|i incs]; [done|].
  rewrite Hs. unfold insert_at, include_insert_pos, rfind.
  rewrite !rfind_from_none by done. rewrite !Z.eqb_refl. cbn [negb].
  do 3 f_equal. rewrite Ec at 1. rewrite <- Hlen at 1.
  by rewrite drop_app_length.
Qed.

Lemma includes_before_placeholder_witness :
  ∃ m, search init_pattern header_bare = Some m
       ∧ insert_includes header_bare sample_includes
         = take (m_start m) header_bare ++ sample_includes ++ [LF; LF]
             ++ m_group0 m ++ m_rest m.
Proof.
  eexists. split; [by vm_compute|].
  apply (includes_before_placeholder header_bare sample_includes); by vm_compute.
Defined.

(** ** The command line *)

Lemma entry_write_same (fs : file_system) (p : text) (written : option text) :
  entry (write_file fs p written) p = file_after (entry fs p) written.
Proof.
  unfold entry, write_file. destruct written as [t|]; [|done].
  by rewrite lookup_insert_eq.
Qed.

Lemma entry_write_other (fs : file_system) (p q : text) (written : option text) :
  p ≠ q → entry (write_file fs p written) q = entry fs q.
Proof.
  intros Hne. unfold entry, write_file. destruct written as [t|]; [|done].
  by rewrite lookup_insert_ne.
Qed.

(** A pass that does not set [found] reports no match. *)
Lemma found_false_matches (p : text) (f : fs_entry) :
  let r := check_and_comment_server_impl p f in
  found r.1 = false → matches r.1 = [].
Proof.
  destruct f as [| |content|content|]; try done.
  all: simpl; rewrite scan_lines_eq; simpl; by intros ?%nonempty_false.
Qed.

(** A second pass over a file gives [main] nothing and writes nothing. *)
Lemma rescan (p : text) (f : fs_entry) :
  let r := check_and_comment_server_impl p f in
  let r' := check_and_comment_server_impl p (file_after f r.2) in
  kept_registrations r'.1 = [] ∧ r'.2 = None.
Proof.
  destruct f as [| |content|content|]; try done.
  - intros r. pose proof (lines_after p content) as Hl. fold r in Hl.
    destruct (file_after (File content) r.2) as [| |content'| |] eqn:Ef; try done.
    cbn [check_and_comment_server_impl]. rewrite Hl, scan_lines_eq.
    cbn [st_found st_matches st_modified]. by rewrite second_pass_no_match.
  - simpl. rewrite scan_lines_eq. simpl. unfold kept_registrations. simpl.
    by destruct (omap _ _).
Qed.

(** A pass that gives [main] nothing writes nothing. *)
Lemma scan_idle (p : text) (f : fs_entry) :
  let r := check_and_comment_server_impl p f in
  kept_registrations r.1 = [] → r.2 = None.
Proof.
  destruct f as [| |content|content|]; try done.
  simpl. rewrite scan_lines_eq. unfold kept_registrations. simpl.
  by intros ->%fmap_nil_inv.
Qed.

(** One turn of the loop of [main]: what the scan wrote is written, what
    [main] takes from its result is appended. *)
Lemma main_step_eq (resolve : text -> text) (fs : file_system)
    (regs : list registration) (x : text) :
  let r := check_and_comment_server_impl (resolve x) (entry fs (resolve x)) in
  main_step resolve (fs, regs) x
  = (write_file fs (resolve x) r.2, regs ++ kept_registrations r.1).
Proof.
  intros r. unfold main_step, kept_registrations. cbn [fst snd]. fold r.
  destruct (error r.1); [by rewrite app_nil_r|].
  destruct (found r.1) eqn:Ef; [done|].
  assert (matches r.1 = []) as -> by (by apply found_false_matches).
  by rewrite app_nil_r.
Qed.

Section MainLoop.

Variable resolve : text -> text.

(** The state of the loop of [main] after the paths [file_paths]. *)
Lemma main_loop (fs : file_system) (file_paths : list text) :
  let st := fold_left (main_step resolve) file_paths (fs, []) in
  st.2 = registrations_found fs (resolve <$> file_paths)
  ∧ ∀ q, entry st.1 q
         = if decide (q ∈ resolve <$> file_paths) then scanned fs q else entry fs q.
Proof.
  induction file_paths as [|x l IH] using rev_ind; [done|].
  rewrite fold_left_app. cbn [fold_left].
  destruct IH as [Hregs Hent].
  destruct (fold_left (main_step resolve) l (fs, [])) as [fs1 regs1]. simpl in Hregs, Hent.
  rewrite fmap_app. cbn [fmap list_fmap]. unfold registrations_found in *.
  rewrite first_occurrences_snoc, main_step_eq. cbn [fst snd].
  set (p := resolve x). pose proof (Hent p) as Hp.
  destruct (decide (p ∈ resolve <$> l)) as [Hin | Hout].
  - rewrite decide_True by (by apply first_occurrences_elem).
    rewrite Hp. unfold scanned.
    destruct (rescan p (entry fs p)) as [-> ->]. rewrite app_nil_r.
    split; [done|]. intros q. cbn [write_file]. rewrite Hent.
    destruct (decide (q ∈ resolve <$> l)) as [Hq | Hq].
    + by rewrite decide_True by set_solver.
    + rewrite decide_False; [done|]. set_solver.
  - rewrite decide_False by (by rewrite first_occurrences_elem).
    rewrite Hp. split.
    + rewrite bind_app, <- Hregs. simpl. by rewrite app_nil_r.
    + intros q. destruct (decide (q = p)) as [-> | Hne].
      * rewrite entry_write_same, Hp. by rewrite decide_True by set_solver.
      * rewrite entry_write_other by done. rewrite Hent.
        destruct (decide (q ∈ resolve <$> l)) as [Hq | Hq].
        -- by rewrite decide_True by set_solver.
        -- rewrite decide_False; [done|]. set_solver.
Qed.

End MainLoop.

(** The loop of [main] over files that give it nothing changes
    nothing. *)
Lemma loop_idle (resolve : text -> text) (l : list text) (fs : file_system)
    (regs : list registration) :
  (∀ x, x ∈ l → registrations_in fs (resolve x) = []) →
  fold_left (main_step resolve) l (fs, regs) = (fs, regs).
Proof.
  induction l as [|x l IH]; intros Hl; [done|].
  cbn [fold_left]. assert (main_step resolve (fs, regs) x = (fs, regs)) as ->.
  { assert (registrations_in fs (resolve x) = []) as Hx by (apply Hl; left).
    unfold registrations_in in Hx. rewrite main_step_eq, Hx, app_nil_r.
    by rewrite (scan_idle _ _ Hx). }
  apply IH. intros y Hy. apply Hl. by right.
Qed.

Lemma registrations_found_nil (fs : file_system) (paths : list text) :
  registrations_found fs paths = []
  ↔ ∀ p, p ∈ paths → registrations_in fs p = [].
Proof.
  unfold registrations_found. split.
  - intros Hnil p Hp%first_occurrences_elem.
    destruct (registrations_in fs p) as [|r rs] eqn:E; [done|].
    assert (r ∈ first_occurrences paths ≫= registrations_in fs) as Hin.
    { apply list_elem_of_bind. exists p. split; [|done]. rewrite E. left. }
    rewrite Hnil in Hin. by apply elem_of_nil in Hin.
  - intros Hall. apply elem_of_nil_inv. intros r (p & Hr & Hp)%list_elem_of_bind.
    rewrite Hall in Hr by (by apply first_occurrences_elem).
    by apply elem_of_nil in Hr.
Qed.

Lemma main_nothing_to_register_aux (resolve init_file_of : text -> text)
    (argv : list text) (fs : file_system) :
  3 ≤ length argv →
  registrations_found fs (resolve <$> drop 2 argv) = [] →
  main resolve init_file_of argv fs = (0, fs)
  ∧ fold_left (main_step resolve) (drop 2 argv) (fs, []) = (fs, []).
Proof.
  intros Hge Hnil.
  assert (fold_left (main_step resolve) (drop 2 argv) (fs, []) = (fs, [])) as Hl.
  { apply loop_idle. intros x Hx. apply (proj1 (registrations_found_nil _ _) Hnil).
    by apply list_elem_of_fmap_2. }
  split; [|done]. unfold main.
  assert ((length argv <? 3) = false) as -> by (by apply Nat.ltb_ge).
  by rewrite Hl.
Qed.

(** X14.  Nothing to register is no failure: when no file of the command line
    holds an accepted marker, be it that a file does not exist or is a
    directory, [main] ends with exit code 0 and leaves every file,
    the target file too, as it was; so it does when the only markers
    stand in files that cannot be written, whose scans end with an error.
    With fewer than three words on the command line it ends with exit
    code 1, also without a change. *)
Theorem main_nothing_to_register (resolve init_file_of : text -> text)
    (argv : list text) (fs : file_system) :
  (length argv < 3 → main resolve init_file_of argv fs = (1, fs))
  ∧ (3 ≤ length argv →
     registrations_found fs (resolve <$> drop 2 argv) = [] →
     main resolve init_file_of argv fs = (0, fs)).
Proof.
  unfold main. split.
  - intros Hlt. by assert ((length argv <? 3) = true) as -> by (by apply Nat.ltb_lt).
  - intros Hge Hnil.
    assert ((length argv <? 3) = false) as -> by (by apply Nat.ltb_ge).
    rewrite loop_idle; [done|].
    intros x Hx. apply (proj1 (registrations_found_nil _ _) Hnil).
    by apply list_elem_of_fmap_2.
Qed.

Lemma main_nothing_to_register_witness :
  main id sample_init_file_of sample_argv ∅ = (0, ∅)
  ∧ main id sample_init_file_of sample_argv
      (<[sample_path := ReadOnly (sample_file 0)]> ∅)
    = (0, <[sample_path := ReadOnly (sample_file 0)]> ∅).
Proof.
  split.
  - apply (main_nothing_to_register id sample_init_file_of sample_argv ∅);
      [simpl; lia | by vm_compute].
  - apply (main_nothing_to_register id sample_init_file_of sample_argv);
      [simpl; lia | by vm_compute].
Defined.

(** Registrations give include statements. *)
Lemma includes_nonempty (resolve : text -> text) (regs : list registration) :
  regs ≠ [] → generate_include_statements resolve regs ≠ [].
Proof.
  intros Hne. rewrite generate_include_statements_eq.
  destruct regs as [|r regs]; [done|].
  assert (resolved_path resolve r
          ∈ first_occurrences (resolved_path resolve <$> r :: regs)) as Hin
    by (apply first_occurrences_elem; left).
  destruct (first_occurrences _) as [|p ps]; [by apply elem_of_nil in Hin|].
  simpl. by destruct (list_fmap _ _ _ ps).
Qed.

Lemma isword_no_backslash (w : text) :
  Forall (λ c, isword c = true) w → no_backslash w.
Proof.
  intros Hw Hin. rewrite Forall_forall in Hw. apply Hw in Hin. by vm_compute in Hin.
Qed.

Lemma register_statement_no_backslash (reg : registration) :
  no_backslash (reg_class_name reg) → no_backslash (reg_server_impl_content reg) →
  no_backslash (register_statement reg).
Proof.
  unfold no_backslash, register_statement. intros Hc Hp.
  rewrite !elem_of_app.
  intros [Hin | [? | [Hin | [Hin | [? | [Hin | Hin]]]]]]; try done;
    revert Hin; compute_done.
Qed.

(** The registration code holds a backslash only when a class name or a
    payload does. *)
Lemma registration_code_no_backslash (regs : list registration) :
  (∀ reg, reg ∈ regs →
     no_backslash (reg_class_name reg) ∧ no_backslash (reg_server_impl_content reg)) →
  no_backslash (generate_registration_code regs).
Proof.
  intros Hall. destruct regs as [|r regs]; [unfold no_backslash; compute_done|].
  unfold generate_registration_code. rewrite registration_lines, join_snoc.
  cbn [app]. unfold no_backslash. rewrite elem_of_app. intros [Hin | Hin].
  - apply list_elem_of_In, in_concat in Hin as (l & Hin%list_elem_of_In & Hl%list_elem_of_In).
    apply list_elem_of_fmap in Hin as (st & -> & (reg & -> & Hreg)%list_elem_of_fmap).
    apply elem_of_app in Hl as [Hl | Hl]; [|revert Hl; compute_done].
    destruct (Hall reg Hreg) as [H1 H2].
    by apply (register_statement_no_backslash reg H1 H2).
  - revert Hin. compute_done.
Qed.

(** The class name of a match is a run of word characters. *)
Lemma matched_class_word (p : text) (f : fs_entry) (info : match_info) :
  info ∈ matches (check_and_comment_server_impl p f).1 →
  Forall (λ c, isword c = true) (class_name info).
Proof.
  destruct f as [| |content|content|]; try (by intros ?%elem_of_nil).
  all: rewrite ?matches_read_only, matches_of_file.
  all: intros (i & line & m0 & cls & Hi & (_ & _ & Hf)%accept_Some & ->)%match_elem.
  all: apply find_class_Some in Hf as (j & lj & m & _ & _ & Hs & -> & _).
  all: apply search_Some in Hs as (pre & _ & _ & Hm & _).
  all: by apply class_name_shape in Hm as (_ & Hw & _).
Qed.

Lemma found_registration (fs : file_system) (paths : list text) (reg : registration) :
  reg ∈ registrations_found fs paths →
  ∃ p info, p ∈ paths
            ∧ info ∈ matches (check_and_comment_server_impl p (entry fs p)).1
            ∧ reg = registration_of info.
Proof.
  unfold registrations_found, registrations_in, kept_registrations.
  intros (p & Hreg & Hp)%list_elem_of_bind.
  apply (proj1 (first_occurrences_elem _ _)) in Hp.
  destruct (error _); [by apply elem_of_nil in Hreg|].
  apply list_elem_of_fmap in Hreg as (info & -> & Hin). by exists p, info.
Qed.

(** Where the pattern does not occur nothing is replaced. *)
Lemma replaced_all_absent (r : regex) (f : match_obj -> text) (s out : text) :
  ¬ occurs r s → replaced_all r f s out → out = s.
Proof.
  intros Hno Hr. destruct Hr as [s _ | pre m pos out _ Hm _ _]; [done|].
  destruct Hno. apply match_at_occurs in Hm.
  apply (occurs_infix r pre _ []) in Hm. by rewrite app_nil_r in Hm.
Qed.

Section MainRun.

Variables resolve init_file_of : text -> text.

(** [main] on a command line that gives registrations: the files are
    scanned, then the target file is patched with what was found. *)
Lemma main_with_registrations (argv : list text) (fs : file_system) :
  let paths := resolve <$> drop 2 argv in
  let regs := registrations_found fs paths in
  let init_file := init_file_of (nth 1 argv []) in
  3 ≤ length argv → regs ≠ [] →
  ∃ fs1,
    (∀ q, entry fs1 q = if decide (q ∈ paths) then scanned fs q else entry fs q)
    ∧ main resolve init_file_of argv fs
      = let r := update_server_factory_init (entry fs1 init_file)
                   (generate_registration_code regs)
                   (generate_include_statements resolve regs) in
        (match update_err r.1 with
         | Some _ => 1
         | None => if success r.1 then 0 else 1
         end, write_file fs1 init_file r.2).
Proof.
  intros paths regs init_file Hge Hne.
  destruct (main_loop resolve fs (drop 2 argv)) as [Hregs Hent].
  fold paths in Hregs, Hent. fold regs in Hregs.
  exists (fold_left (main_step resolve) (drop 2 argv) (fs, [])).1.
  split; [done|]. unfold main.
  assert ((length argv <? 3) = false) as -> by (by apply Nat.ltb_ge).
  rewrite Hregs. fold init_file. destruct regs as [|r regs']; [done|].
  cbv zeta. destruct (update_server_factory_init _ _ _) as [[s e] w]. simpl.
  by destruct e, s.
Qed.

Lemma unscanned_entry (fs : file_system) (paths : list text) (p : text) :
  registrations_in fs p = [] → scanned fs p = entry fs p.
Proof.
  unfold registrations_in, scanned. intros Hnil.
  by rewrite (scan_idle _ _ Hnil).
Qed.

(** Whatever the exit code, the files of the command line are left as
    their scans leave them. *)
Lemma main_marks (argv : list text) (fs : file_system) (q : text) :
  3 ≤ length argv →
  init_file_of (nth 1 argv []) ∉ resolve <$> drop 2 argv →
  q ∈ resolve <$> drop 2 argv →
  entry (main resolve init_file_of argv fs).2 q = scanned fs q.
Proof.
  intros Hge Hinit Hq.
  destruct (decide (registrations_found fs (resolve <$> drop 2 argv) = [])) as [Hnil | Hne].
  - destruct (main_nothing_to_register_aux resolve init_file_of argv fs Hge Hnil)
      as [-> _]. simpl.
    symmetry. apply (unscanned_entry fs (resolve <$> drop 2 argv)).
    by apply (proj1 (registrations_found_nil _ _) Hnil).
  - destruct (main_with_registrations argv fs Hge Hne) as (fs1 & Hent & ->).
    cbn [snd]. rewrite entry_write_other by (intros E; by rewrite E in Hinit).
    rewrite Hent. by rewrite decide_True.
Qed.

End MainRun.

(** Files that were scanned give nothing more to register. *)
Lemma marked_registers_nothing (fs fs' : file_system) (paths : list text) :
  (∀ q, q ∈ paths → entry fs' q = scanned fs q) →
  registrations_found fs' paths = [].
Proof.
  intros Hent. apply registrations_found_nil. intros p Hp.
  unfold registrations_in. rewrite (Hent p Hp). unfold scanned.
  by destruct (rescan p (entry fs p)) as [-> _].
Qed.

(** X15.  The registrations [main] collects: what it takes from the scan
    of each file in the state in which [main] found it, every file once,
    however often and under whatever names the command line lists it, in
    the order in which the files first occur; within a file in the order
    of the lines.  From a scan that ended with an error [main] takes
    nothing, also when the result holds matches: only a file that can be
    read and written gives registrations, and a file that holds accepted
    markers but cannot be written is passed over without a word.  After
    the loop every listed file is as its scan left it and every other file
    is untouched. *)
Theorem registrations_collected_once (resolve : text -> text) (fs : file_system)
    (file_paths : list text) :
  let st := fold_left (main_step resolve) file_paths (fs, []) in
  let paths := resolve <$> file_paths in
  let taken := λ p,
    let r := check_and_comment_server_impl p (entry fs p) in
    match error r.1 with
    | Some _ => []
    | None => registration_of <$> matches r.1
    end in
  st.2 = first_occurrences paths ≫= taken
  ∧ NoDup (first_occurrences paths)
  ∧ (∀ p, p ∈ first_occurrences paths ↔ p ∈ paths)
  ∧ (∀ p content, entry fs p = File content →
       taken p = registration_of
                   <$> matches (check_and_comment_server_impl p (File content)).1)
  ∧ (∀ p, (∀ content, entry fs p ≠ File content) → taken p = [])
  ∧ (∀ q, entry st.1 q
          = if decide (q ∈ paths)
            then file_after (entry fs q)
                   (check_and_comment_server_impl q (entry fs q)).2
            else entry fs q).
Proof.
  intros st paths taken. destruct (main_loop resolve fs file_paths) as [Hregs Hent].
  split_and!; [done | apply first_occurrences_NoDup | apply first_occurrences_elem
              | | | done].
  - intros p content Hp. unfold taken. by rewrite Hp.
  - intros p Hp. unfold taken.
    destruct (entry fs p) as [| |content|content|] eqn:E; try done.
    + by destruct (Hp content).
    + simpl. rewrite scan_lines_eq. simpl. by destruct (omap _ _).
Qed.

(** X16.  The exit code of [main] on a command line of at least three words
    whose target file is not among the files scanned is 0 or 1, and it is
    0 exactly when [main] took no registration, or the target file is a
    file that can be read and written and the registration code makes a
    well-formed replacement template (as [re] of CPython 3.12 and later
    reads it).  A target file that does not exist, is a directory, cannot
    be read or cannot be written gives exit code 1 once there is something
    to register.  Whether the target file holds a placeholder plays no
    part.  When no payload holds a backslash the template is well formed
    and the exit code is 0 exactly when nothing was taken or the target
    can be read and written. *)
Theorem main_exit_code (resolve init_file_of : text -> text) (argv : list text)
    (fs : file_system) :
  let paths := resolve <$> drop 2 argv in
  let regs := registrations_found fs paths in
  let init_file := init_file_of (nth 1 argv []) in
  let exit_code := (main resolve init_file_of argv fs).1 in
  3 ≤ length argv →
  init_file ∉ paths →
  (exit_code = 0
   ↔ regs = [] ∨ (∃ content, entry fs init_file = File content
                             ∧ valid_template (generate_registration_code regs)))
  ∧ (exit_code = 0 ∨ exit_code = 1)
  ∧ ((∀ reg, reg ∈ regs → no_backslash (reg_server_impl_content reg)) →
     (exit_code = 0 ↔ regs = [] ∨ ∃ content, entry fs init_file = File content)).
Proof.
  intros paths regs init_file exit_code Hge Hinit.
  assert (exit_code = 0
          ↔ regs = [] ∨ (∃ content, entry fs init_file = File content
                                    ∧ valid_template (generate_registration_code regs)))
    as Hiff.
  { unfold exit_code. destruct (decide (regs = [])) as [Hnil | Hne].
    - destruct (main_nothing_to_register_aux resolve init_file_of argv fs Hge Hnil)
        as [-> _].
      simpl. split; [by left | done].
    - destruct (main_with_registrations resolve init_file_of argv fs Hge Hne)
        as (fs1 & Hent & ->).
      fold paths regs init_file. rewrite Hent, decide_False by done. cbn [fst].
      pose proof (includes_nonempty resolve regs Hne) as Hinc.
      destruct (entry fs init_file) as [| |content|content|] eqn:Ei; simpl.
      + split; [done|]. by intros [? | (c & ? & _)].
      + split; [done|]. by intros [? | (c & ? & _)].
      + unfold re_sub, valid_template.
        destruct (parse_template _ _) as [tmpl|]; simpl.
        * rewrite (proj2 (text_eqb_neq _ _) Hinc), andb_false_r. simpl.
          split; [|done]. intros _. right. exists content. split; [done | by eexists].
        * split; [done|]. by intros [? | (c & _ & [? ?])].
      + unfold re_sub. split; [|by intros [? | (c & ? & _)]].
        destruct (parse_template _ _) as [tmpl|]; simpl; [|done].
        by rewrite (proj2 (text_eqb_neq _ _) Hinc), andb_false_r.
      + split; [done|]. by intros [? | (c & ? & _)]. }
  split_and!; [done | |].
  - unfold exit_code. destruct (decide (regs = [])) as [Hnil | Hne].
    + destruct (main_nothing_to_register_aux resolve init_file_of argv fs Hge Hnil)
        as [-> _]. by left.
    + destruct (main_with_registrations resolve init_file_of argv fs Hge Hne)
        as (fs1 & _ & ->).
      cbv zeta. cbn [fst]. destruct (update_err _); [by right|].
      destruct (success _); by eauto.
  - intros Hpay. rewrite Hiff. split.
    + intros [? | (content & ? & _)]; [by left | right; by exists content].
    + intros [? | (content & Hc)]; [by left|]. right. exists content. split; [done|].
      apply no_backslash_valid, registration_code_no_backslash.
      intros reg Hreg. split; [|by apply Hpay].
      apply found_registration in Hreg as (p & info & _ & Hin & ->).
      by apply isword_no_backslash, (matched_class_word p (entry fs p)).
Qed.

Lemma main_exit_code_witness :
  let exit_code :=
    (main id sample_init_file_of sample_argv (sample_fs plain_content)).1 in
  let regs := registrations_found (sample_fs plain_content) (id <$> drop 2 sample_argv) in
  let init_file := sample_init_file_of (nth 1 sample_argv []) in
  (exit_code = 0
   ↔ regs = [] ∨ (∃ content, entry (sample_fs plain_content) init_file = File content
                             ∧ valid_template (generate_registration_code regs)))
  ∧ (exit_code = 0 ∨ exit_code = 1)
  ∧ ((∀ reg, reg ∈ regs → no_backslash (reg_server_impl_content reg)) →
     (exit_code = 0
      ↔ regs = [] ∨ ∃ content, entry (sample_fs plain_content) init_file = File content)).
Proof.
  apply (main_exit_code id sample_init_file_of sample_argv (sample_fs plain_content)).
  - simpl. lia.
  - compute_done.
Defined.

(** *** Patching a target file that holds a placeholder *)

Lemma space_init_char (w : text) :
  Forall (λ c, isspace c = true) w → Forall (λ c, init_char c = true) w.
Proof.
  intros H. eapply Forall_impl; [exact H|].
  intros c Hc. unfold init_char. by rewrite Hc.
Qed.

(** A match of the placeholder pattern holds letters of its words, white
    space, parentheses, braces and a semicolon only. *)
Lemma init_chars (w : text) (cs : caps) :
  re_matches init_pattern [] w cs → Forall (λ c, init_char c = true) w.
Proof.
  unfold init_pattern. intros H. inv_re.
  repeat first
    [ apply Forall_app; split
    | apply Forall_literal; reflexivity
    | apply space_init_char; first [assumption | by repeat constructor] ].
Qed.

Lemma init_match_avoids (w : text) (cs : caps) (d : ascii) :
  re_matches init_pattern [] w cs → init_char d = false → d ∉ w.
Proof.
  intros Hw%init_chars Hd Hin. rewrite Forall_forall in Hw.
  apply Hw in Hin. congruence.
Qed.

(** A text that avoids the character [d] and stands at the head of
    [k ++ d :: y] stands at the head of [k]. *)
Lemma prefix_before_char (w rest k y : text) (d : ascii) :
  w ++ rest = k ++ d :: y → d ∉ w → ∃ x, k = w ++ x.
Proof.
  intros E Hd. apply app_eq_inv in E as [(z & -> & E) | (z & -> & E)].
  - destruct z as [|d' z]; [exists []; by rewrite !app_nil_r|].
    injection E as <- _. destruct Hd. set_solver.
  - by exists z.
Qed.

Lemma snoc_suffix (X k k2 : text) (d : ascii) :
  X ++ [d] = k ++ k2 → k2 ≠ [] → ∃ k3, k2 = k3 ++ [d] ∧ X = k ++ k3.
Proof.
  intros E Hne. destruct k2 as [|c k2 _] using rev_ind; [done|].
  rewrite app_assoc in E. apply app_inj_tail in E as [-> ->]. by exists k2.
Qed.

(** The match [search] reports is the match found at its place. *)
Lemma search_from_match_at (r : regex) (pos : nat) (s : text) (m : match_obj) :
  search_from r pos s = Some m →
  match_at r (m_start m) (m_group0 m ++ m_rest m) = Some m.
Proof.
  revert pos. induction s as [|c s IH]; intros pos; simpl.
  - destruct (match_at r pos []) as [m'|] eqn:E; [|done].
    intros [= ->]. pose proof E as (<- & <- & _)%match_at_Some. done.
  - destruct (match_at r pos (c :: s)) as [m'|] eqn:E; [|by apply IH].
    intros [= ->]. pose proof E as (<- & <- & _)%match_at_Some. done.
Qed.

Lemma match_at_shift (r : regex) (pos pos' : nat) (s : text) (m : match_obj) :
  match_at r pos s = Some m →
  match_at r pos' s = Some (MatchObj pos' (m_group0 m) (m_groups m) (m_rest m)).
Proof.
  unfold match_at. destruct (rmatch r [] s) as [|[cs rest] l]; [done|].
  by intros [= <-].
Qed.

(** [sub] copies a stretch of text in which no match starts. *)
Lemma sub_walk_prefix (r : regex) (tmpl : list titem) (Q s : text) (pos : nat) :
  (∀ a b, Q = a ++ b → b ≠ [] → match_at r 0 (b ++ s) = None) →
  sub_walk r tmpl pos 0 (Q ++ s) = Q ++ sub_walk r tmpl (pos + length Q) 0 s.
Proof.
  revert pos. induction Q as [|c Q IH]; intros pos Hno.
  - simpl. by rewrite Nat.add_0_r.
  - cbn [app sub_walk].
    assert (match_at r pos (c :: Q ++ s) = None) as ->
      by (apply (match_at_pos r 0); by apply (Hno [] (c :: Q))).
    rewrite IH.
    + cbn [length]. by replace (S pos + length Q) with (pos + S (length Q)) by lia.
    + intros a b -> Hb. by apply (Hno (c :: a) b).
Qed.

(** [sub] at a match that is not empty: the expansion, then the text
    after the match. *)
Lemma sub_walk_at_match (r : regex) (tmpl : list titem) (pos : nat) (m : match_obj) :
  match_at r pos (m_group0 m ++ m_rest m) = Some m → m_group0 m ≠ [] →
  sub_walk r tmpl pos 0 (m_group0 m ++ m_rest m)
  = expand_template tmpl m
      ++ sub_walk r tmpl (pos + length (m_group0 m)) 0 (m_rest m).
Proof.
  intros Hm Hne. destruct (m_group0 m) as [|c w] eqn:Eg; [done|].
  cbn [app sub_walk]. cbn [app] in Hm. rewrite Hm, Eg. cbn [length].
  rewrite sub_walk_skip.
  by replace (S pos + length w) with (pos + S (length w)) by lia.
Qed.

Lemma replaced_all_ext (r : regex) (f g : match_obj -> text) (s out : text) :
  (∀ m, f m = g m) → replaced_all r f s out → replaced_all r g s out.
Proof.
  intros Hfg H. induction H as [s Hno | pre m pos out Hleft Hm Hne Hr IH].
  - by apply ra_done.
  - rewrite Hfg. by apply (ra_step _ _ pre m pos).
Qed.

Lemma sub_walk_patched (code s : text) (pos : nat) :
  replaced_all init_pattern (patched code) s
    (sub_walk init_pattern (TGroup 1 :: TLit LF :: (TLit <$> code) ++ [TGroup 2])
              pos 0 s).
Proof.
  eapply replaced_all_ext; [apply expand_replacement|].
  apply sub_walk_replaced, init_nonempty.
Qed.

(** Include statements put into a stretch of text in which no placeholder
    starts start none: a placeholder holds neither the number sign the
    statements begin with nor the quote they end with. *)
Lemma inserted_no_match (pre1 pre2 S body : text) :
  (∀ a b, pre1 ++ pre2 = a ++ b → b ≠ [] →
          match_at init_pattern 0 (b ++ S) = None) →
  ¬ occurs init_pattern ("#"%char :: body ++ [DQ]) →
  ∀ a b, pre1 ++ ("#"%char :: body ++ [DQ]) ++ [LF; LF] ++ pre2 = a ++ b → b ≠ [] →
         match_at init_pattern 0 (b ++ S) = None.
Proof.
  intros NS0 Hinc a b E Hb.
  destruct (match_at init_pattern 0 (b ++ S)) as [mm|] eqn:Em; [exfalso|done].
  apply match_at_Some in Em as (_ & Es & Hm).
  pose proof (init_head _ _ Hm) as [w' Hhead].
  assert (∀ a0 b0 rest0, pre1 ++ pre2 = a0 ++ b0 → b0 ≠ [] →
                         b0 ++ S = m_group0 mm ++ rest0 → False) as NS0'.
  { intros a0 b0 rest0 E0 Hb0 Es0.
    by apply (proj1 (match_at_None _ _ _) (NS0 a0 b0 E0 Hb0)
                (m_group0 mm) rest0 (m_groups mm)). }
  apply app_eq_inv in E as [(k & E1 & E2) | (k & E1 & E2)].
  - (* the match starts before the statements *)
    subst b. destruct k as [|c k].
    + rewrite Hhead in Es. by simplify_eq/=.
    + rewrite <- !app_assoc in Es. cbn [app] in Es.
      change (c :: k ++ "#"%char :: ?y) with ((c :: k) ++ "#"%char :: y) in Es.
      symmetry in Es. apply prefix_before_char in Es as [x Ex];
        [|by apply (init_match_avoids _ _ _ Hm)].
      apply (NS0' a ((c :: k) ++ pre2) (x ++ pre2 ++ S)).
      * subst pre1. by rewrite <- app_assoc.
      * done.
      * rewrite Ex. by rewrite <- !app_assoc.
  - apply app_eq_inv in E2 as [(k2 & E3 & E4) | (k2 & E3 & E4)].
    + (* the match starts in the statements *)
      subst b. destruct k2 as [|c k2].
      * rewrite Hhead in Es. by simplify_eq/=.
      * change ("#"%char :: body ++ [DQ]) with (("#"%char :: body) ++ [DQ]) in E3.
        apply snoc_suffix in E3 as (k3 & Ek & EX); [|done].
        rewrite Ek in Es. rewrite <- !app_assoc in Es. cbn [app] in Es.
        symmetry in Es. apply prefix_before_char in Es as [x Ex];
          [|by apply (init_match_avoids _ _ _ Hm)].
        apply Hinc. exists k, (m_group0 mm), (x ++ [DQ]), (m_groups mm).
        split; [|done].
        change ("#"%char :: body ++ [DQ]) with (("#"%char :: body) ++ [DQ]).
        rewrite EX, Ex. by rewrite <- !app_assoc.
    + apply app_eq_inv in E4 as [(k3 & E5 & E6) | (k3 & E5 & E6)].
      * (* the match starts in the two line ends, or right after them *)
        subst b. destruct k3 as [|c k3].
        -- apply (NS0' pre1 pre2 (m_rest mm)); [done | done | done].
        -- assert (c = LF) as ->.
           { destruct k2 as [|? [|? [|? ?]]]; by simplify_eq/=. }
           rewrite Hhead in Es. by simplify_eq/=.
      * (* the match starts after the statements *)
        apply (NS0' (pre1 ++ k3) b (m_rest mm)); [|done | done].
        by rewrite E6, app_assoc.
Qed.

(** The include statements of a list of registrations that is not empty
    begin with a number sign and end with a quote. *)
Lemma includes_shape (resolve : text -> text) (regs : list registration) :
  regs ≠ [] →
  ∃ body, generate_include_statements resolve regs = "#"%char :: body ++ [DQ].
Proof.
  intros Hne. rewrite generate_include_statements_eq.
  destruct regs as [|r regs]; [done|].
  assert (resolved_path resolve r
          ∈ first_occurrences (resolved_path resolve <$> r :: regs)) as Hin
    by (apply first_occurrences_elem; left).
  destruct (first_occurrences _) as [|p ps]; [by apply elem_of_nil in Hin|].
  clear Hin. revert p. induction ps as [|p' ps IH]; intros p.
  - by exists (T "include " ++ [DQ] ++ p).
  - destruct (IH p') as [body Hb].
    cbn [fmap list_fmap] in Hb |- *. rewrite join_cons by done. rewrite Hb.
    exists (T "include " ++ [DQ] ++ p ++ [DQ] ++ [LF] ++ "#"%char :: body).
    unfold include_directive. cbn. by rewrite <- !app_assoc.
Qed.

Lemma insert_includes_found (content include_statements : text) (m : match_obj) :
  include_statements ≠ [] → search init_pattern content = Some m →
  insert_includes content include_statements
  = insert_at content (include_insert_pos content (m_start m)) include_statements.
Proof. intros Hne Hs. unfold insert_includes. rewrite Hs. by destruct include_statements. Qed.

(** The patcher on a file with a placeholder, when the include
    statements land before it. *)
Lemma update_patches (content code include_statements body : text)
    (m : match_obj) :
  no_backslash code →
  include_statements = "#"%char :: body ++ [DQ] →
  ¬ occurs init_pattern include_statements →
  search init_pattern content = Some m →
  include_insert_pos content (m_start m) ≤ m_start m →
  ∃ out_rest,
    replaced_all init_pattern (patched code) (m_rest m) out_rest
    ∧ update_server_factory_init (File content) code include_statements
      = (UpdateResult true None,
         Some (take (include_insert_pos content (m_start m)) content
                 ++ include_statements ++ [LF; LF]
                 ++ drop (include_insert_pos content (m_start m))
                      (take (m_start m) content)
                 ++ patched code m ++ out_rest)).
Proof.
  intros Hb Hshape Hinc Hs Hpos.
  set (pos := include_insert_pos content (m_start m)) in *.
  destruct (search_split _ _ _ Hs) as [Ec Hlen].
  set (pre := take (m_start m) content) in *.
  set (tmpl := TGroup 1 :: TLit LF :: (TLit <$> code) ++ [TGroup 2]).
  exists (sub_walk init_pattern tmpl
            (length (take pos pre ++ include_statements ++ [LF; LF] ++ drop pos pre)
             + length (m_group0 m)) 0 (m_rest m)).
  split; [apply sub_walk_patched|].
  assert (insert_includes content include_statements
          = (take pos pre ++ include_statements ++ [LF; LF] ++ drop pos pre)
              ++ m_group0 m ++ m_rest m) as Hins.
  { rewrite (insert_includes_found _ _ m) by (by rewrite ?Hshape).
    unfold insert_at. fold pos.
    assert (take pos content = take pos pre) as ->.
    { unfold pre. rewrite take_take. f_equal. lia. }
    assert (drop pos content = drop pos pre ++ m_group0 m ++ m_rest m) as ->.
    { transitivity (drop pos (pre ++ m_group0 m ++ m_rest m)); [by rewrite <- Ec|].
      by rewrite drop_app_le by lia. }
    by rewrite <- !app_assoc. }
  assert (∀ a b, take pos pre ++ drop pos pre = a ++ b → b ≠ [] →
                 match_at init_pattern 0 (b ++ m_group0 m ++ m_rest m) = None) as NS0.
  { rewrite take_drop. intros a b Eab Hne.
    pose proof Hs as (pre' & Ec' & Hst & _ & Hleft)%search_Some.
    assert (pre' = pre) as ->
      by (apply (app_inv_tail (m_group0 m ++ m_rest m)); by rewrite <- Ec, <- Ec').
    assert (drop (length a) content = b ++ m_group0 m ++ m_rest m) as Hd.
    { transitivity (drop (length a) ((a ++ b) ++ m_group0 m ++ m_rest m));
        [by rewrite <- Eab, <- Ec|].
      by rewrite <- app_assoc, drop_app_length. }
    apply (match_at_pos _ (length a)). rewrite <- Hd. apply Hleft.
    rewrite Eab, length_app. destruct b; [done|]. simpl. lia. }
  pose proof (search_from_match_at _ _ _ _ Hs) as Hm.
  unfold update_server_factory_init, re_sub.
  rewrite parse_replacement by done. fold tmpl. cbn [mbind option_bind].
  rewrite Hins. rewrite sub_walk_prefix.
  2: { rewrite Hshape. apply inserted_no_match; [done | by rewrite <- Hshape]. }
  rewrite (sub_walk_at_match init_pattern tmpl _
             (MatchObj (0 + length (take pos pre ++ include_statements
                                      ++ [LF; LF] ++ drop pos pre))
                       (m_group0 m) (m_groups m) (m_rest m))).
  2: { by apply (match_at_shift _ (m_start m)). }
  2: { simpl. intros Hg. apply match_at_Some in Hm as (_ & _ & Hre).
       rewrite Hg in Hre. by apply init_nonempty in Hre. }
  cbn [m_group0 m_rest].
  assert (text_eqb include_statements [] = false) as ->
    by (apply text_eqb_neq; by rewrite Hshape).
  rewrite andb_false_r. do 2 f_equal.
  unfold tmpl. rewrite expand_replacement. unfold patched. cbn [m_groups Nat.add].
  assert (take pos content = take pos pre) as ->.
  { unfold pre. rewrite take_take. f_equal. lia. }
  by rewrite <- !app_assoc.
Qed.

(** X17.  The full run on a target file that can be read and written and
    holds a placeholder, for payloads without backslash, when the include
    statements land at or before the first placeholder and hold no
    placeholder themselves: [main] ends with exit code 0.  The target
    file then holds its content up to the place of the include
    statements, the include statements and two line ends, the content
    from there to the first placeholder, then in place of that
    placeholder its signature, a line end, the registration code of the
    registrations taken and its closing brace, and after it the rest of
    the content with every further placeholder replaced likewise.  Every
    file of the command line is as its scan left it and no other file is
    touched. *)
Theorem main_patches_target (resolve init_file_of : text -> text) (argv : list text)
    (fs : file_system) (content : text) (m : match_obj) :
  let paths := resolve <$> drop 2 argv in
  let regs := registrations_found fs paths in
  let init_file := init_file_of (nth 1 argv []) in
  let code := generate_registration_code regs in
  let include_statements := generate_include_statements resolve regs in
  let pos := include_insert_pos content (m_start m) in
  3 ≤ length argv →
  init_file ∉ paths →
  entry fs init_file = File content →
  regs ≠ [] →
  (∀ reg, reg ∈ regs → no_backslash (reg_server_impl_content reg)) →
  search init_pattern content = Some m →
  pos ≤ m_start m →
  ¬ occurs init_pattern include_statements →
  let r := main resolve init_file_of argv fs in
  r.1 = 0
  ∧ content = take (m_start m) content ++ m_group0 m ++ m_rest m
  ∧ (∃ out_rest,
       replaced_all init_pattern (patched code) (m_rest m) out_rest
       ∧ entry r.2 init_file
         = File (take pos content ++ include_statements ++ [LF; LF]
                   ++ drop pos (take (m_start m) content)
                   ++ (group 1 (m_groups m) ++ [LF] ++ code ++ group 2 (m_groups m))
                   ++ out_rest))
  ∧ (∀ q, q ≠ init_file →
          entry r.2 q = if decide (q ∈ paths) then scanned fs q else entry fs q).
Proof.
  intros paths regs init_file code include_statements pos
    Hge Hinit Hcontent Hne Hpay Hs Hpos Hinc r. unfold r.
  destruct (main_with_registrations resolve init_file_of argv fs Hge Hne)
    as (fs1 & Hent & ->).
  fold paths regs init_file code include_statements.
  rewrite Hent, decide_False, Hcontent by done.
  assert (no_backslash code) as Hb.
  { apply registration_code_no_backslash. intros reg Hreg. split; [|by apply Hpay].
    apply found_registration in Hreg as (p & info & _ & Hin & ->).
    by apply isword_no_backslash, (matched_class_word p (entry fs p)). }
  destruct (includes_shape resolve regs Hne) as [body Hshape].
  fold include_statements in Hshape.
  destruct (update_patches content code include_statements body m
              Hb Hshape Hinc Hs Hpos) as (out_rest & Hrep & ->).
  cbv zeta. cbn [fst snd success update_err].
  split_and!; [done | by apply (search_split init_pattern) | |].
  - exists out_rest. split; [done|]. by rewrite entry_write_same.
  - intros q Hq. by rewrite entry_write_other.
Qed.

Lemma main_patches_target_witness :
  ∃ m,
    search init_pattern header_with_include = Some m
    ∧ let fs := sample_fs header_with_include in
      let r := main id sample_init_file_of sample_argv fs in
      let regs := registrations_found fs (id <$> drop 2 sample_argv) in
      let init_file := sample_init_file_of (nth 1 sample_argv []) in
      let pos := include_insert_pos header_with_include (m_start m) in
      r.1 = 0
      ∧ header_with_include
        = take (m_start m) header_with_include ++ m_group0 m ++ m_rest m
      ∧ (∃ out_rest,
           replaced_all init_pattern (patched (generate_registration_code regs))
             (m_rest m) out_rest
           ∧ entry r.2 init_file
             = File (take pos header_with_include
                       ++ generate_include_statements id regs ++ [LF; LF]
                       ++ drop pos (take (m_start m) header_with_include)
                       ++ (group 1 (m_groups m) ++ [LF]
                             ++ generate_registration_code regs
                             ++ group 2 (m_groups m))
                       ++ out_rest))
      ∧ (∀ q, q ≠ init_file →
              entry r.2 q = if decide (q ∈ id <$> drop 2 sample_argv)
                            then scanned fs q else entry fs q).
Proof.
  eexists. split; [by vm_compute|].
  apply (main_patches_target id sample_init_file_of sample_argv
           (sample_fs header_with_include) header_with_include).
  - simpl. lia.
  - compute_done.
  - by vm_compute.
  - by vm_compute.
  - intros reg Hreg. vm_compute in Hreg.
    apply list_elem_of_singleton in Hreg as ->. unfold no_backslash. compute_done.
  - by vm_compute.
  - vm_compute. lia.
  - apply (search_from_None init_pattern 0). by vm_compute.
Defined.

(** X18.  A target file without placeholder is no failure either, and the
    registrations are lost: for payloads without backslash [main] ends
    with exit code 0, the target file holds what it held, yet the markers
    of the files scanned have been rewritten, so that another run over
    the same files finds nothing to register. *)
Theorem main_absent_placeholder (resolve init_file_of : text -> text)
    (argv : list text) (fs : file_system) (content : text) :
  let paths := resolve <$> drop 2 argv in
  let regs := registrations_found fs paths in
  let init_file := init_file_of (nth 1 argv []) in
  3 ≤ length argv →
  init_file ∉ paths →
  entry fs init_file = File content →
  ¬ occurs init_pattern content →
  regs ≠ [] →
  (∀ reg, reg ∈ regs → no_backslash (reg_server_impl_content reg)) →
  let r := main resolve init_file_of argv fs in
  r.1 = 0
  ∧ entry r.2 init_file = File content
  ∧ (∀ q, q ∈ paths → entry r.2 q = scanned fs q)
  ∧ registrations_found r.2 paths = [].
Proof.
  intros paths regs init_file Hge Hinit Hcontent Habs Hne Hpay r.
  assert (∀ q, q ∈ paths → entry r.2 q = scanned fs q) as Hmarked.
  { intros q Hq. by apply main_marks. }
  split_and!; [| | done | by apply (marked_registers_nothing fs)].
  all: unfold r.
  all: destruct (main_with_registrations resolve init_file_of argv fs Hge Hne)
         as (fs1 & Hent & ->).
  all: fold paths regs init_file; rewrite Hent, decide_False, Hcontent by done.
  all: assert (no_backslash (generate_registration_code regs)) as Hb;
    [ apply registration_code_no_backslash; intros reg Hreg; split; [|by apply Hpay];
      apply found_registration in Hreg as (p & info & _ & Hin & ->);
      by apply isword_no_backslash, (matched_class_word p (entry fs p)) |].
  all: pose proof (includes_nonempty resolve regs Hne) as Hinc.
  all: rewrite (update_absent _ _ _ Habs).
  all: destruct (no_backslash_valid _ Hb) as [tmpl ->].
  all: rewrite (proj2 (text_eqb_neq _ _) Hinc); cbv zeta; cbn [fst snd success update_err].
  - done.
  - by rewrite entry_write_same.
Qed.

Lemma main_absent_placeholder_witness :
  let r := main id sample_init_file_of sample_argv (sample_fs plain_content) in
  r.1 = 0
  ∧ entry r.2 (sample_init_file_of (nth 1 sample_argv [])) = File plain_content
  ∧ (∀ q, q ∈ id <$> drop 2 sample_argv →
          entry r.2 q = scanned (sample_fs plain_content) q)
  ∧ registrations_found r.2 (id <$> drop 2 sample_argv) = [].
Proof.
  apply (main_absent_placeholder id sample_init_file_of sample_argv
           (sample_fs plain_content) plain_content).
  - simpl. lia.
  - compute_done.
  - by vm_compute.
  - exact plain_content_absent.
  - by vm_compute.
  - intros reg Hreg. vm_compute in Hreg.
    apply list_elem_of_singleton in Hreg as ->. unfold no_backslash. compute_done.
Defined.

(** X19.  Running [main] again on the same command line registers nothing and
    changes nothing: whatever the first run did, success or failure, it
    left the files scanned with their markers rewritten, so the second
    run ends with exit code 0 and leaves every file as it found it.  A
    first run that failed to patch the target file is not made good by
    running the script again. *)
Theorem main_rerun_registers_nothing (resolve init_file_of : text -> text)
    (argv : list text) (fs : file_system) :
  3 ≤ length argv →
  init_file_of (nth 1 argv []) ∉ resolve <$> drop 2 argv →
  let fs1 := (main resolve init_file_of argv fs).2 in
  main resolve init_file_of argv fs1 = (0, fs1)
  ∧ registrations_found fs1 (resolve <$> drop 2 argv) = [].
Proof.
  intros Hge Hinit fs1.
  assert (registrations_found fs1 (resolve <$> drop 2 argv) = []) as Hnil.
  { apply (marked_registers_nothing fs). intros q Hq. by apply main_marks. }
  split; [|done].
  by destruct (main_nothing_to_register_aux resolve init_file_of argv fs1 Hge Hnil).
Qed.

Lemma main_rerun_registers_nothing_witness :
  let fs1 := (main id sample_init_file_of sample_argv
                (sample_fs header_with_include)).2 in
  main id sample_init_file_of sample_argv fs1 = (0, fs1)
  ∧ registrations_found fs1 (id <$> drop 2 sample_argv) = [].
Proof.
  apply (main_rerun_registers_nothing id sample_init_file_of sample_argv
           (sample_fs header_with_include)).
  - simpl. lia.
  - compute_done.
Defined.

(** ** Files the scanner leaves alone *)

(** A match of the class pattern ends with the name of the interface. *)
Lemma class_tail (w : text) (cs : caps) :
  re_matches class_pattern [] w cs → T "IServer" `suffix_of` w.
Proof.
  unfold class_pattern. intros H. inv_re.
  all: repeat first [ reflexivity | apply suffix_app_r | apply suffix_cons_r ].
Qed.

Lemma contains_part (sub a b : text) : contains sub (a ++ sub ++ b) = true.
Proof. apply contains_spec. by exists a, b. Qed.

Lemma contains_in_line (sub content line : text) (i : nat) (x y : text) :
  readlines content !! i = Some line → line = x ++ sub ++ y →
  contains sub content = true.
Proof.
  intros Hi ->. rewrite <- (concat_readlines content).
  rewrite <- (take_drop_middle _ _ _ Hi), concat_app. simpl.
  rewrite <- !app_assoc, app_assoc. apply contains_part.
Qed.

(** X20.  A file that does not hold the tag, or does not name the
    interface, is left alone: without the text @ServerImpl or without
    the text IServer in the content the scan reports nothing, sets no
    flag, raises no error and does not write the file. *)
Theorem untagged_file_untouched (p content : text) :
  contains (T "@ServerImpl") content = false
  ∨ contains (T "IServer") content = false →
  check_and_comment_server_impl p (File content)
  = (ScanResult false [] false None, None).
Proof.
  intros Hno.
  assert (omap (match_of p (readlines content)) (enumerate (readlines content)) = [])
    as Hnil.
  { apply elem_of_nil_inv.
    intros info (i & line & m & cls & Hi & (_ & Hs & Hf)%accept_Some & _)%match_elem.
    destruct Hno as [Hno | Hno].
    - apply search_Some in Hs as (pre & E & _ & Hm & _).
      apply annotation_shape in Hm as (a & b & c & Ew & _).
      destruct (strip_split line) as (l & r & El & _).
      rewrite E, Ew in El.
      assert (contains (T "@ServerImpl") content = true); [|congruence].
      apply (contains_in_line _ content line i
               (l ++ pre ++ group 1 (m_groups m) ++ T "/*" ++ a)
               (b ++ T "(" ++ group 2 (m_groups m) ++ T ")" ++ c ++ T "*/"
                  ++ m_rest m ++ r)); [done|].
      rewrite El. by rewrite <- !app_assoc.
    - apply find_class_Some in Hf as (j & lj & m' & _ & Hj & Hs' & _).
      apply search_Some in Hs' as (pre & E & _ & [k Ek]%class_tail & _).
      assert (contains (T "IServer") content = true); [|congruence].
      apply (contains_in_line _ content lj j (pre ++ k) (m_rest m')); [done|].
      rewrite E, Ek. by rewrite <- !app_assoc. }
  cbn [check_and_comment_server_impl]. rewrite scan_lines_eq. by rewrite Hnil.
Qed.

Lemma untagged_file_untouched_witness :
  check_and_comment_server_impl sample_path (File header_with_comment)
  = (ScanResult false [] false None, None).
Proof.
  apply (untagged_file_untouched sample_path header_with_comment).
  left. by vm_compute.
Defined.
